(** * The bounded TTL response cache of [api/index.py]

    A shallow embedding of the [cache_response] and [handle_errors]
    decorators and of the module-level dictionary [_app_cache] they share,
    followed by the properties of the cache.

    Modelling choices.
    - [_app_cache] is a Python [dict]: keys are unique and iteration follows
      insertion order.  The order decides which key [min] returns when two
      timestamps are equal, so the dictionary is an association list in
      insertion order, not an unordered finite map.
    - [time.time()] is an input of every call; clock readings are integers
      (ticks of a fixed resolution).  Nothing forces successive readings to
      grow: where a property needs a clock that has not gone back, it says
      so ([not_after]).
    - A handler is a function of its positional arguments, its keyword
      arguments and the state of the process outside the cache (the logger
      output and a world [W] that stands for whatever else the handler
      touches).  A handler either returns a value or raises.
    - No handler of the module writes [_app_cache] ([health_check] reads
      its length and nothing more); the type of handlers reflects this:
      only the cache decorator changes the dictionary. *)

From Stdlib Require Import ZArith Lia Ascii.
From stdpp Require Import base tactics option list sorting strings.

(** ** Exceptions, outcomes, log *)

(** The three classes of exception that [handle_errors] tells apart:
    [werkzeug.exceptions.NotFound], any other subclass of [Exception], and
    what derives from [BaseException] only ([SystemExit],
    [KeyboardInterrupt]).  Each carries [str(e)]. *)
Inductive exn : Type :=
  | NotFound (msg : string)
  | OtherException (msg : string)
  | NonException (msg : string).

Inductive outcome (T : Type) : Type :=
  | Returned (v : T)
  | Raised (e : exn).
Arguments Returned {T} v.
Arguments Raised {T} e.

(** [logger.info] and [logger.error] records. *)
Inductive log_event : Type :=
  | LogInfo (msg : string)
  | LogError (msg : string).

(** The part of flask's [request] that the cache reads. *)
Record request : Type := { method : string; path : string }.

(** What a view wrapped by [handle_errors] returns: the value of the view,
    or the pair [(jsonify(body), status)]. *)
Inductive response (T : Type) : Type :=
  | Plain (v : T)
  | JsonStatus (body : list (string * string)) (status : Z).
Arguments Plain {T} v.
Arguments JsonStatus {T} body status.

(** ** The dictionary *)

Module Dict.
(** Entries in insertion order. *)
Abbreviation t E := (list (string * E)) (only parsing).

Section Dict.
Context {E : Type}.

(** [k in d] and [d[k]]. *)
Fixpoint get (k : string) (d : t E) : option E :=
  match d with
  | [] => None
  | (k', e) :: rest => if decide (k' = k) then Some e else get k rest
  end.

(** [d[k] = e]: an existing key keeps its place, a new one goes last. *)
Fixpoint set (k : string) (e : E) (d : t E) : t E :=
  match d with
  | [] => [(k, e)]
  | (k', e') :: rest =>
      if decide (k' = k) then (k', e) :: rest else (k', e') :: set k e rest
  end.

(** [del d[k]]. *)
Fixpoint del (k : string) (d : t E) : t E :=
  match d with
  | [] => []
  | (k', e') :: rest =>
      if decide (k' = k) then rest else (k', e') :: del k rest
  end.

Definition keys (d : t E) : list string := map fst d.

(** Well-formed dictionaries: no key twice. *)
Definition wf (d : t E) : Prop := NoDup (keys d).
End Dict.
End Dict.

(** A cache entry is the pair [(result, current_time)]; the cache maps keys
    to entries. *)
Abbreviation entry V := (V * Z)%type (only parsing).
Abbreviation cache V := (Dict.t (entry V)) (only parsing).

(** ** The decorators *)

Section Cache.
(** [A]: positional and keyword argument values, with their [repr];
    [V]: values returned by views; [W]: the world outside the cache. *)
Context {A V W : Type} (repr : A -> string).

Record proc : Type := { logs : list log_event; world : W }.

Definition log (ev : log_event) (p : proc) : proc :=
  {| logs := logs p ++ [ev]; world := world p |}.

(** A function object: [f.__name__] and its behaviour on [*args],
    [**kwargs]. *)
Record handler (T : Type) : Type := {
  fn_name : string;
  call : list A -> list (string * A) -> proc -> outcome T * proc
}.
Arguments fn_name {T} h.
Arguments call {T} h.
Arguments Build_handler {T}.

(** [str(args)] for the tuple of positional arguments. *)
Definition str_args (args : list A) : string :=
  match args with
  | [] => "()"
  | [x] => "(" +:+ repr x +:+ ",)"
  | _ => "(" +:+ String.concat ", " (map repr args) +:+ ")"
  end.

(** Line 42:
    [f"{f.__name__}_{request.method}_{request.path}_{str(args)}"]. *)
Definition cache_key (name : string) (req : request) (args : list A)
  : string :=
  name +:+ "_" +:+ method req +:+ "_" +:+ path req +:+ "_" +:+ str_args args.

(** [min(seq, key=...)] over a non-empty sequence: the first element whose
    timestamp is the least (a later element replaces the current best only
    when it is strictly smaller). *)
Fixpoint min_by_timestamp (best : string * entry V)
    (rest : list (string * entry V)) : string * entry V :=
  match rest with
  | [] => best
  | x :: rest' =>
      if bool_decide (snd (snd x) < snd (snd best))%Z
      then min_by_timestamp x rest'
      else min_by_timestamp best rest'
  end.

(** Lines 58-59: [min] over the keys, compared by the timestamp found
    under each key; keys being unique, that is the timestamp of the entry
    itself.  [None] stands for the [ValueError] of [min] on an empty
    dictionary. *)
Definition oldest_key (c : cache V) : option string :=
  match c with
  | [] => None
  | e :: rest => Some (fst (min_by_timestamp e rest))
  end.

(** The capacity of line 57. *)
Definition capacity : nat := 50.

(** Lines 57-61. *)
Definition cleanup (c : cache V) (p : proc) : cache V * proc :=
  if bool_decide (capacity < length c) then
    match oldest_key c with
    | Some k => (Dict.del k c, log (LogInfo "Cache cleanup ejecutado") p)
    | None => (c, p)
    end
  else (c, p).

(** Lines 52-63: the path taken when the entry is absent or has expired. *)
Definition compute_and_store (cache_key : string)
    (compute : proc -> outcome V * proc) (current_time : Z)
    (c : cache V) (p : proc) : outcome V * (cache V * proc) :=
  match compute p with
  | (Raised e, p') => (Raised e, (c, p'))
  | (Returned result, p') =>
      (Returned result,
       cleanup (Dict.set cache_key (result, current_time) c) p')
  end.

(** Lines 43-63, the body of the wrapper once the key is known: the
    [get_or_compute(key, ttl, compute_fn)] of the specification. *)
Definition get_or_compute (cache_key : string) (ttl : Z)
    (compute : proc -> outcome V * proc) (current_time : Z)
    (c : cache V) (p : proc) : outcome V * (cache V * proc) :=
  match Dict.get cache_key c with
  | Some (cached_result, timestamp) =>
      if bool_decide (current_time - timestamp < ttl)%Z
      then (Returned cached_result,
            (c, log (LogInfo ("Cache hit para " +:+ cache_key)) p))
      else compute_and_store cache_key compute current_time c p
  | None => compute_and_store cache_key compute current_time c p
  end.

(** Lines 36-65: [cache_response(ttl)(f)] called with [*args], [**kwargs]
    while [request] is [req] and the clock reads [current_time]. *)
Definition cache_response (ttl : Z) (f : handler V) (req : request)
    (args : list A) (kwargs : list (string * A)) (current_time : Z)
    (c : cache V) (p : proc) : outcome V * (cache V * proc) :=
  get_or_compute (cache_key (fn_name f) req args) ttl
    (call f args kwargs) current_time c p.
End Cache.

Arguments fn_name {A W T} h.
Arguments call {A W T} h.
Arguments Build_handler {A W T}.
Arguments logs {W} p.
Arguments world {W} p.
Arguments Build_proc {W}.
Arguments proc W : clear implicits.
Arguments handler A W T : clear implicits.

Section Routes.
Context {A W : Type}.

Definition not_found_body : list (string * string) :=
  [("error", "Recurso no encontrado");
   ("message", "La ruta solicitada no existe")].

Definition server_error_body : list (string * string) :=
  [("error", "Error interno del servidor");
   ("message", "Ocurrió un error inesperado")].

(** Lines 67-84.  [functools.wraps] gives the wrapper the name of [f].
    [except NotFound] comes first, [except Exception] takes every other
    subclass of [Exception]; anything else goes through. *)
Definition handle_errors {T : Type} (f : handler A W T)
  : handler A W (response T) :=
  {| fn_name := fn_name f;
     call := fun args kwargs p =>
       match call f args kwargs p with
       | (Returned v, p') => (Returned (Plain v), p')
       | (Raised (NotFound _), p') =>
           (Returned (JsonStatus not_found_body 404), p')
       | (Raised (OtherException msg), p') =>
           (Returned (JsonStatus server_error_body 500),
            log (LogError ("Error en " +:+ fn_name f +:+ ": " +:+ msg)) p')
       | (Raised (NonException msg), p') => (Raised (NonException msg), p')
       end |}.

(** The stacking of lines 90-93 and 299-302:
    [@cache_response(ttl=...)] above [@handle_errors]. *)
Definition cached_route {T : Type} (repr : A -> string) (ttl : Z)
    (f : handler A W T) :=
  cache_response repr ttl (handle_errors f).
End Routes.

(** ** Sequences of calls *)

Section Runs.
Context {V W : Type}.

(** One call of a cached function: the key it derives, the [ttl] of its
    decorator, the wrapped function applied to its arguments, and the
    clock reading. *)
Record invocation : Type := {
  inv_key : string;
  inv_ttl : Z;
  inv_compute : proc W -> outcome V * proc W;
  inv_time : Z
}.

Definition invoke (i : invocation) (c : cache V) (p : proc W)
  : outcome V * (cache V * proc W) :=
  get_or_compute (inv_key i) (inv_ttl i) (inv_compute i) (inv_time i) c p.

(** The calls of a list, one after the other, on the shared cache. *)
Fixpoint run (calls : list invocation) (c : cache V) (p : proc W)
  : list (outcome V) * (cache V * proc W) :=
  match calls with
  | [] => ([], (c, p))
  | i :: rest =>
      let '(o, (c', p')) := invoke i c p in
      let '(os, final) := run rest c' p' in
      (o :: os, final)
  end.

(** The states of [_app_cache] in the life of a process: empty at import
    (line 33), then changed by completed calls only. *)
Inductive reachable : cache V -> Prop :=
  | reachable_empty : reachable []
  | reachable_call c i p :
      reachable c -> reachable (fst (snd (invoke i c p))).

(** The entries that a list of calls stores when call number [n] returns
    the [n]-th value of [vs]. *)
Definition entries_of (calls : list invocation) (vs : list V) : cache V :=
  zip_with (fun i v => (inv_key i, (v, inv_time i))) calls vs.

(** Every timestamp of the cache is a reading the clock gave no later
    than [now]. *)
Definition not_after (now : Z) (c : cache V) : Prop :=
  Forall (fun kv => (snd (snd kv) <= now)%Z) c.
End Runs.
Arguments invocation V W : clear implicits.

(** ** Observing calls of the wrapped function *)

Section Counting.
Context {V W : Type}.

(** The function [f] with a counter of its invocations next to its world:
    the counter goes up each time [f] is entered, whether it returns or
    raises. *)
Definition counted (f : proc W -> outcome V * proc W)
  : proc (W * nat) -> outcome V * proc (W * nat) :=
  fun p =>
    let '(o, p') := f {| logs := logs p; world := fst (world p) |} in
    (o, {| logs := logs p'; world := (world p', S (snd (world p))) |}).

Definition invocations (p : proc (W * nat)) : nat := snd (world p).

(** The entry under [k] is absent or has expired at [now]: the condition
    under which lines 52-63 run. *)
Definition misses (k : string) (ttl now : Z) (c : cache V) : Prop :=
  Dict.get k c = None \/
  exists v t, Dict.get k c = Some (v, t) /\ (now - t >= ttl)%Z.
End Counting.

(** ** Concrete caches and handlers *)

Module Fixtures.
(** Distinct one-letter keys: ["0"], ["1"], ... *)
Definition key_of (n : nat) : string :=
  String (Ascii.ascii_of_nat (48 + n)) EmptyString.

(** A function that returns [n] and touches nothing. *)
Definition const (n : nat) : proc unit -> outcome nat * proc unit :=
  fun p => (Returned n, p).

(** A function that raises. *)
Definition raising : proc unit -> outcome nat * proc unit :=
  fun p => (Raised (OtherException "boom"), p).

Definition quiet : proc unit := {| logs := []; world := tt |}.

(** The same with an invocation counter at zero. *)
Definition quiet0 : proc (unit * nat) := {| logs := []; world := (tt, 0) |}.

(** A cache at capacity: key [n] holds value [n], stored at time [n]. *)
Definition full_cache : cache nat :=
  map (fun n => (key_of n, (n, Z.of_nat n))) (seq 0 50).

(** A cache at capacity whose entries were all stored at time 100. *)
Definition late_cache : cache nat :=
  map (fun n => (key_of n, (n, 100%Z))) (seq 0 50).

(** Call number [n] of a series: key [n], value [n], at time [n / 2], so
    that consecutive calls may read the same time. *)
Definition nth_call (n : nat) : invocation nat unit :=
  {| inv_key := key_of n; inv_ttl := 600; inv_compute := const n;
     inv_time := Z.of_nat (n / 2) |}.

Definition series : list (invocation nat unit) := map nth_call (seq 0 51).

(** A view named [home] that always raises. *)
Definition failing : handler nat unit nat :=
  {| fn_name := "home";
     call := fun _ _ p => (Raised (OtherException "boom"), p) |}.

(** A view that returns its first keyword argument, or 0. *)
Definition first_kwarg : handler nat unit nat :=
  {| fn_name := "view";
     call := fun _ kwargs p =>
       (Returned (match kwargs with (_, x) :: _ => x | [] => 0 end), p) |}.

Definition root : request := {| method := "GET"; path := "/" |}.

(** Key ["k"] stored at time 0, key ["a"] at time 15. *)
Definition small_cache : cache nat := [("a", (1, 15%Z)); ("k", (7, 0%Z))].
End Fixtures.

(** ** Characters of a key *)

(** [a in s]. *)
Fixpoint occurs (a : Ascii.ascii) (s : string) : bool :=
  match s with
  | EmptyString => false
  | String b rest => bool_decide (a = b) || occurs a rest
  end.

(** ** A clock that does not go back *)

Section Clock.
Context {V W : Type}.

(** [reached t c]: the cache [c] is what calls with non-decreasing clock
    readings, the last of them [t] or earlier, have made of the empty
    cache. *)
Inductive reached : Z -> cache V -> Prop :=
  | reached_empty t : reached t []
  | reached_call t c (i : invocation V W) p :
      reached t c -> (t <= inv_time i)%Z ->
      reached (inv_time i) (fst (snd (invoke i c p))).
End Clock.

(** ** Response headers *)

(** [response.headers] is a werkzeug [Headers] object: a list of
    [(name, value)] pairs in which names are compared without regard to
    case. *)
Module Headers.
Abbreviation t := (list (string * string)) (only parsing).

Definition lower_ascii (a : Ascii.ascii) : Ascii.ascii :=
  let n := Ascii.nat_of_ascii a in
  if (65 <=? n) && (n <=? 90) then Ascii.ascii_of_nat (n + 32) else a.

Fixpoint lower (s : string) : string :=
  match s with
  | EmptyString => EmptyString
  | String a rest => String (lower_ascii a) (lower rest)
  end.

Definition same (k k' : string) : bool := bool_decide (lower k = lower k').

(** [headers.get(k)]: the value of the first header of that name. *)
Fixpoint get (k : string) (h : t) : option string :=
  match h with
  | [] => None
  | (k', v) :: rest => if same k' k then Some v else get k rest
  end.

(** How many headers of the list have the name [k]. *)
Fixpoint count (k : string) (h : t) : nat :=
  match h with
  | [] => 0
  | (k', _) :: rest => if same k' k then S (count k rest) else count k rest
  end.

(** The headers whose name is not [k]. *)
Fixpoint remove (k : string) (h : t) : t :=
  match h with
  | [] => []
  | (k', v) :: rest =>
      if same k' k then remove k rest else (k', v) :: remove k rest
  end.

(** [headers[k] = v]: the first header of that name is replaced and the
    other ones of that name are dropped; a new name goes last. *)
Fixpoint set (k v : string) (h : t) : t :=
  match h with
  | [] => [(k, v)]
  | (k', v') :: rest =>
      if same k' k then (k, v) :: remove k rest else (k', v') :: set k v rest
  end.
End Headers.

(** Lines 430-455: [after_request], as a function of [request.endpoint]
    ([None] when no route matched), of [request.path] and of the headers of
    the response, the only part of the response it touches. *)
Definition after_request (endpoint : option string) (req : request)
    (headers : Headers.t) : Headers.t :=
  let h := Headers.set "X-Content-Type-Options" "nosniff" headers in
  let h := Headers.set "X-Frame-Options" "DENY" h in
  let h := Headers.set "X-XSS-Protection" "1; mode=block" h in
  let h := Headers.set "Referrer-Policy" "strict-origin-when-cross-origin" h in
  let h :=
    if match endpoint with
       | Some e => bool_decide (e ∈ ["home"; "health_check"])
       | None => false
       end
    then Headers.set "Cache-Control" "public, max-age=300" h
    else Headers.set "Cache-Control" "no-cache, no-store, must-revalidate" h in
  let h :=
    if String.prefix "/api/" (path req)
    then
      let h := Headers.set "Access-Control-Allow-Origin" "*" h in
      let h := Headers.set "Access-Control-Allow-Methods"
                 "GET, POST, OPTIONS" h in
      Headers.set "Access-Control-Allow-Headers"
        "Content-Type, Authorization" h
    else h in
  Headers.set "X-Powered-By" "Flask-Vercel-Optimized" h.

(** [after_request] as the list of the assignments [headers[k] = v] that it
    makes, in order. *)
Definition assignments (endpoint : option string) (req : request)
  : list (string * string) :=
  [("X-Content-Type-Options", "nosniff"); ("X-Frame-Options", "DENY");
   ("X-XSS-Protection", "1; mode=block");
   ("Referrer-Policy", "strict-origin-when-cross-origin")]
  ++ [("Cache-Control",
       if match endpoint with
          | Some e => bool_decide (e ∈ ["home"; "health_check"])
          | None => false
          end
       then "public, max-age=300"
       else "no-cache, no-store, must-revalidate")]
  ++ (if String.prefix "/api/" (path req)
      then [("Access-Control-Allow-Origin", "*");
            ("Access-Control-Allow-Methods", "GET, POST, OPTIONS");
            ("Access-Control-Allow-Headers", "Content-Type, Authorization")]
      else [])
  ++ [("X-Powered-By", "Flask-Vercel-Optimized")].

Fixpoint assign_all (kvs : list (string * string)) (h : Headers.t)
  : Headers.t :=
  match kvs with
  | [] => h
  | (k, v) :: rest => assign_all rest (Headers.set k v h)
  end.

(** No two assignments of the list write the same header. *)
Fixpoint distinct_names (kvs : list (string * string)) : bool :=
  match kvs with
  | [] => true
  | (k, _) :: rest =>
      forallb (fun kv => negb (Headers.same k (fst kv))) rest
      && distinct_names rest
  end.

(** The names that [after_request] may write. *)
Definition written_headers : list string :=
  ["X-Content-Type-Options"; "X-Frame-Options"; "X-XSS-Protection";
   "Referrer-Policy"; "Cache-Control"; "Access-Control-Allow-Origin";
   "Access-Control-Allow-Methods"; "Access-Control-Allow-Headers";
   "X-Powered-By"].

(** ** The view [process_data] *)

Section ProcessData.
(** [F]: Python floats, with the test [x == 0.0]. *)
Context {A W F : Type} (float_is_zero : F -> bool).

(** A value parsed from a JSON body.  Strings are lists of code points;
    the keys of an object are unique. *)
#[warnings="-register-all"] Inductive json : Type :=
  | JNull
  | JBool (b : bool)
  | JInt (n : Z)
  | JFloat (x : F)
  | JStr (chars : list N)
  | JList (items : list json)
  | JDict (members : list (string * json)).

(** [bool(data)]. *)
Definition truthy (data : json) : bool :=
  match data with
  | JNull => false
  | JBool b => b
  | JInt n => negb (n =? 0)%Z
  | JFloat x => negb (float_is_zero x)
  | JStr chars => negb (bool_decide (chars = []))
  | JList items => match items with [] => false | _ => true end
  | JDict members => match members with [] => false | _ => true end
  end.

(** [type(data).__name__]. *)
Definition type_name (data : json) : string :=
  match data with
  | JNull => "NoneType"
  | JBool _ => "bool"
  | JInt _ => "int"
  | JFloat _ => "float"
  | JStr _ => "str"
  | JList _ => "list"
  | JDict _ => "dict"
  end.

(** [len(data)] where [hasattr(data, '__len__')]. *)
Definition py_len (data : json) : option nat :=
  match data with
  | JStr chars => Some (length chars)
  | JList items => Some (length items)
  | JDict members => Some (length members)
  | _ => None
  end.

(** What [request.get_json()] does: it returns the parsed body, or raises
    [json.JSONDecodeError], another [Exception], or something that is not
    an [Exception].  The last three carry [str(e)]. *)
Inductive get_json_result : Type :=
  | Parsed (data : json)
  | DecodeError (details : string)
  | Failed (msg : string)
  | Exited (msg : string).

(** The fields of [processed_result] that do not depend on the clock or on
    [json.dumps]: [input_data], [metadata.data_type],
    [metadata.keys_count] and [processing_summary.items_processed]. *)
Record processed_result : Type := {
  input_data : json;
  data_type : string;
  keys_count : option nat;
  items_processed : nat
}.

(** Lines 354-371. *)
Definition process (data : json) : processed_result :=
  {| input_data := data;
     data_type := type_name data;
     keys_count := match data with
                   | JDict members => Some (length members)
                   | _ => None
                   end;
     items_processed := match py_len data with Some n => n | None => 1 end |}.

(** Lines 336-388, for a request whose [is_json] and [get_json()] are as
    given.  [Plain] is the 200 response of line 373. *)
Definition process_data (is_json : bool) (get_json : get_json_result)
  : handler A W (response processed_result) :=
  {| fn_name := "process_data";
     call := fun _ _ p =>
       if negb is_json then
         (Returned (JsonStatus
            [("error", "Content-Type debe ser application/json")] 400), p)
       else
         match get_json with
         | Parsed data =>
             if negb (truthy data) then
               (Returned (JsonStatus
                  [("error", "No se proporcionaron datos en el body")] 400),
                p)
             else (Returned (Plain (process data)), p)
         | DecodeError details =>
             (Returned (JsonStatus
                [("error", "JSON inválido"); ("details", details)] 400), p)
         | Failed msg =>
             (Returned (JsonStatus
                [("error", "Error en el procesamiento");
                 ("message", "Verifica el formato de los datos enviados")]
                500),
              log (LogError ("Error procesando datos: " +:+ msg)) p)
         | Exited msg => (Raised (NonException msg), p)
         end |}.
End ProcessData.
(** The status of a response: 200 unless the view gave one. *)
Definition status_of {T : Type} (r : response T) : Z :=
  match r with
  | Plain _ => 200
  | JsonStatus _ status => status
  end.

Arguments json F : clear implicits.
Arguments get_json_result F : clear implicits.
Arguments processed_result F : clear implicits.

(** ** The cached views [home] and [health_check] *)

Section Views.
Context {A W : Type}.

(** The body of the health response (lines 304-312). *)
Record health_body : Type := {
  h_status : string;
  h_timestamp : Z;
  h_version : string;
  h_environment : string;
  h_python_version : string;
  h_cache_entries : nat;
  h_uptime : string
}.

(** What the two cached views return: the rendered page, a string, or the
    health response. *)
Inductive view_value : Type :=
  | Page (html : string)
  | Health (body : health_body).

(** Lines 93-297: [home] returns the rendering of a constant template. *)
Definition home (rendered : string) : handler A W view_value :=
  {| fn_name := "home";
     call := fun _ _ p => (Returned (Page rendered), p) |}.

(** Lines 302-312: [health_check], run when [_app_cache] is [c], the clock
    reads [t], [VERCEL_ENV] is [vercel_env] and [os.sys.version] is
    [python_version]. *)
Definition health_check (t : Z) (vercel_env : option string)
    (python_version : string) (c : cache (response view_value))
  : handler A W view_value :=
  {| fn_name := "health_check";
     call := fun _ _ p =>
       (Returned (Health
          {| h_status := "healthy";
             h_timestamp := t;
             h_version := "1.0.0";
             h_environment := default "development" vercel_env;
             h_python_version := python_version;
             h_cache_entries := length c;
             h_uptime := "Serverless - No persistent uptime" |}), p) |}.

(** The route [/api/health] (lines 299-302) on the cache [c]: the view
    runs, if it runs, while the cache is still [c]. *)
Definition health_route (repr : A -> string) (t : Z)
    (vercel_env : option string) (python_version : string) (req : request)
    (current_time : Z) (c : cache (response view_value)) (p : proc W) :=
  cached_route repr 60 (health_check t vercel_env python_version c)
    req [] [] current_time c p.
End Views.

(** ** Concrete requests, views and bodies *)

Module Samples.
(** Sixty calls under distinct keys, at non-decreasing times. *)
Definition long_series : list (invocation nat unit) :=
  map Fixtures.nth_call (seq 0 60).

(** A view that ends the process. *)
Definition exiting : handler nat unit nat :=
  {| fn_name := "view";
     call := fun _ _ p => (Raised (NonException "exit"), p) |}.

(** A view that aborts with 404. *)
Definition missing : handler nat unit nat :=
  {| fn_name := "view";
     call := fun _ _ p => (Raised (NotFound "gone"), p) |}.

Definition health_request : request :=
  {| method := "GET"; path := "/api/health" |}.

(** Headers as a view might leave them: [Cache-Control] twice, in two
    spellings. *)
Definition view_headers : Headers.t :=
  [("cache-control", "max-age=999"); ("Content-Type", "text/html");
   ("CACHE-CONTROL", "private")].

(** Floats are not needed in the sample bodies. *)
Definition no_float (x : Empty_set) : bool := match x with end.

Definition sample_object : json Empty_set :=
  JDict [("a", JInt 1); ("b", JNull)].

(** A cache of responses at capacity: key [n] holds the plain response
    [n], stored at time [n]. *)
Definition full_responses : cache (response nat) :=
  map (fun n => (Fixtures.key_of n, (Plain n, Z.of_nat n))) (seq 0 50).

(** A call under a key that [Fixtures.full_cache] does not hold, at a clock
    reading later than all its timestamps. *)
Definition fresh_call : invocation nat unit :=
  {| inv_key := Fixtures.key_of 50; inv_ttl := 600;
     inv_compute := Fixtures.const 50; inv_time := 50 |}.
End Samples.

(** ** Dictionary facts *)

Section DictFacts.
Context {E : Type}.
Implicit Types (d : Dict.t E) (k : string) (e : E).

Lemma get_None d k : Dict.get k d = None <-> k ∉ Dict.keys d.
Proof.
  induction d as [|[k' e'] d IH]; simpl.
  - split; [intros _; apply not_elem_of_nil | done].
  - case_decide; subst.
    + split; [done | intros H; exfalso; apply H; left].
    + rewrite IH, not_elem_of_cons. split; [by intros ? | by intros [_ ?]].
Qed.

Lemma get_Some_keys d k e : Dict.get k d = Some e -> k ∈ Dict.keys d.
Proof.
  intros H. destruct (decide (k ∈ Dict.keys d)) as [|Hn]; [done|].
  apply get_None in Hn. congruence.
Qed.

Lemma get_Some_elem d k e : Dict.get k d = Some e -> (k, e) ∈ d.
Proof.
  induction d as [|[k' e'] d IH]; simpl; [done|].
  case_decide; subst.
  - intros [= ->]. left.
  - intros H'. right. auto.
Qed.

Lemma get_set_eq d k e : Dict.get k (Dict.set k e d) = Some e.
Proof.
  induction d as [|[k' e'] d IH]; simpl.
  - by rewrite decide_True.
  - case_decide; simpl; [by rewrite decide_True | by rewrite decide_False].
Qed.

Lemma get_set_ne d k k' e :
  k <> k' -> Dict.get k' (Dict.set k e d) = Dict.get k' d.
Proof.
  intros Hne. induction d as [|[k0 e0] d IH]; simpl.
  - by rewrite decide_False.
  - case_decide; subst; simpl.
    + by rewrite !decide_False.
    + case_decide; [done | apply IH].
Qed.

Lemma get_del_ne d k k' :
  k <> k' -> Dict.get k' (Dict.del k d) = Dict.get k' d.
Proof.
  intros Hne. induction d as [|[k0 e0] d IH]; simpl; [done|].
  case_decide; subst; simpl.
  - by rewrite decide_False.
  - case_decide; [done | apply IH].
Qed.

Lemma keys_del_subseteq d k : Dict.keys (Dict.del k d) ⊆ Dict.keys d.
Proof.
  induction d as [|[k0 e0] d IH]; simpl; [done|].
  case_decide; simpl.
  - by apply list_subseteq_cons.
  - by apply list_subseteq_skip.
Qed.

Lemma get_del_eq d k : Dict.wf d -> Dict.get k (Dict.del k d) = None.
Proof.
  unfold Dict.wf. induction d as [|[k0 e0] d IH]; simpl; [done|].
  intros [Hnotin Hnd]%NoDup_cons. case_decide; subst; simpl.
  - by apply get_None.
  - rewrite decide_False by done. auto.
Qed.

(** An overwrite keeps every key where it is. *)
Lemma keys_set_present d k e :
  k ∈ Dict.keys d -> Dict.keys (Dict.set k e d) = Dict.keys d.
Proof.
  induction d as [|[k0 e0] d IH]; simpl.
  - intros H; by apply elem_of_nil in H.
  - intros H. case_decide; subst; simpl; [done|].
    f_equal. apply IH. apply elem_of_cons in H as [->|]; done.
Qed.

(** A new key goes to the end. *)
Lemma set_absent d k e :
  k ∉ Dict.keys d -> Dict.set k e d = d ++ [(k, e)].
Proof.
  induction d as [|[k0 e0] d IH]; simpl; [done|].
  intros [Hne Hn]%not_elem_of_cons. rewrite decide_False by done.
  f_equal. auto.
Qed.

Lemma length_set_present d k e :
  k ∈ Dict.keys d -> length (Dict.set k e d) = length d.
Proof.
  intros H. apply (keys_set_present d k e) in H.
  apply (f_equal length) in H. unfold Dict.keys in H.
  by rewrite !length_map in H.
Qed.

Lemma length_set_absent d k e :
  k ∉ Dict.keys d -> length (Dict.set k e d) = S (length d).
Proof.
  intros H. rewrite set_absent by done. rewrite length_app. simpl. lia.
Qed.

Lemma length_set_le d k e : length (Dict.set k e d) <= S (length d).
Proof.
  destruct (decide (k ∈ Dict.keys d)).
  - rewrite length_set_present by done. lia.
  - rewrite length_set_absent by done. lia.
Qed.

Lemma length_del d k :
  k ∈ Dict.keys d -> S (length (Dict.del k d)) = length d.
Proof.
  induction d as [|[k0 e0] d IH]; simpl.
  - intros H; by apply elem_of_nil in H.
  - intros H. case_decide; subst; simpl; [done|].
    f_equal. apply IH. apply elem_of_cons in H as [->|]; done.
Qed.

Lemma wf_set d k e : Dict.wf d -> Dict.wf (Dict.set k e d).
Proof.
  intros Hwf. destruct (decide (k ∈ Dict.keys d)) as [Hin|Hn].
  - unfold Dict.wf. by rewrite keys_set_present.
  - unfold Dict.wf, Dict.keys. rewrite set_absent by done.
    rewrite map_app. simpl. apply NoDup_app. split_and!; [done | | ].
    + intros x Hx ->%list_elem_of_singleton. done.
    + apply NoDup_singleton.
Qed.

Lemma wf_del d k : Dict.wf d -> Dict.wf (Dict.del k d).
Proof.
  unfold Dict.wf. induction d as [|[k0 e0] d IH]; simpl; [done|].
  intros [Hnotin Hnd]%NoDup_cons. case_decide; simpl; [done|].
  apply NoDup_cons. split; [|auto].
  intros Hin. apply Hnotin. by apply (keys_del_subseteq d k).
Qed.
End DictFacts.

(** ** The oldest entry and the cleanup *)

Section CleanupFacts.
Context {V W : Type}.
Implicit Types (c : cache V) (p : proc W) (kv : string * entry V).

Lemma min_by_timestamp_in kv (rest : list (string * entry V)) :
  min_by_timestamp kv rest ∈ kv :: rest.
Proof.
  revert kv. induction rest as [|x rest IH]; intros kv; simpl.
  - left.
  - case_bool_decide.
    + right. apply IH.
    + specialize (IH kv). apply elem_of_cons in IH as [->|]; [left|].
      by do 2 right.
Qed.

Lemma min_by_timestamp_le_best kv (rest : list (string * entry V)) :
  (snd (snd (min_by_timestamp kv rest)) <= snd (snd kv))%Z.
Proof.
  revert kv. induction rest as [|x rest IH]; intros kv; simpl; [lia|].
  case_bool_decide.
  - specialize (IH x). lia.
  - apply IH.
Qed.

Lemma min_by_timestamp_le kv (rest : list (string * entry V)) x :
  x ∈ kv :: rest ->
  (snd (snd (min_by_timestamp kv rest)) <= snd (snd x))%Z.
Proof.
  revert kv. induction rest as [|y rest IH]; intros kv Hx; simpl.
  - apply list_elem_of_singleton in Hx as ->. lia.
  - apply elem_of_cons in Hx as [->|Hx].
    + case_bool_decide.
      * pose proof (min_by_timestamp_le_best y rest). lia.
      * apply min_by_timestamp_le_best.
    + case_bool_decide.
      * apply IH, Hx.
      * apply elem_of_cons in Hx as [->|Hx].
        -- pose proof (min_by_timestamp_le_best kv rest). lia.
        -- apply IH. by right.
Qed.

(** Ties go to the element met first. *)
Lemma min_by_timestamp_first kv (rest : list (string * entry V)) :
  Forall (fun x => (snd (snd kv) <= snd (snd x))%Z) rest ->
  min_by_timestamp kv rest = kv.
Proof.
  induction 1 as [|x rest Hx _ IH]; simpl; [done|].
  rewrite bool_decide_eq_false_2 by lia. apply IH.
Qed.

Lemma min_by_timestamp_snoc kv (rest : list (string * entry V)) x :
  min_by_timestamp kv (rest ++ [x]) =
  if bool_decide (snd (snd x) < snd (snd (min_by_timestamp kv rest)))%Z
  then x else min_by_timestamp kv rest.
Proof.
  revert kv. induction rest as [|y rest IH]; intros kv; simpl; [done|].
  case_bool_decide; apply IH.
Qed.

Lemma oldest_key_elem c k :
  oldest_key c = Some k ->
  exists e, (k, e) ∈ c /\
    forall kv, kv ∈ c -> (snd e <= snd (snd kv))%Z.
Proof.
  destruct c as [|kv rest]; simpl; [done|].
  pose proof (min_by_timestamp_in kv rest) as Hin.
  pose proof (min_by_timestamp_le kv rest) as Hle.
  destruct (min_by_timestamp kv rest) as [k' e]. simpl.
  intros [= <-]. exists e. split; [done|]. intros x Hx. by apply Hle.
Qed.

Lemma oldest_key_in c k : oldest_key c = Some k -> k ∈ Dict.keys c.
Proof.
  intros (e & Hin & _)%oldest_key_elem.
  apply (list_elem_of_fmap_2 fst) in Hin. exact Hin.
Qed.

Lemma oldest_key_is_Some c : c <> [] -> is_Some (oldest_key c).
Proof. destruct c; [done | eexists; reflexivity]. Qed.

(** A key put last by a clock that did not run backwards is not the
    oldest one, unless it is alone. *)
Lemma oldest_key_snoc c k v now :
  c <> [] -> not_after now c ->
  oldest_key (c ++ [(k, (v, now))]) = oldest_key c.
Proof.
  destruct c as [|kv rest]; [done|]. intros _ Hna. simpl.
  rewrite min_by_timestamp_snoc. rewrite bool_decide_eq_false_2; [done|].
  simpl. pose proof (min_by_timestamp_le_best kv rest).
  apply Forall_cons in Hna as [Hkv _]. lia.
Qed.

Lemma cleanup_within c p :
  length c <= capacity -> cleanup c p = (c, p).
Proof.
  intros H. unfold cleanup. by rewrite bool_decide_eq_false_2 by lia.
Qed.

Lemma cleanup_over c p :
  capacity < length c ->
  exists k, oldest_key c = Some k /\ k ∈ Dict.keys c /\
    cleanup c p = (Dict.del k c, log (LogInfo "Cache cleanup ejecutado") p).
Proof.
  intros H. unfold cleanup. rewrite bool_decide_eq_true_2 by done.
  destruct (oldest_key_is_Some c) as [k Hk].
  { intros ->. simpl in H. lia. }
  exists k. rewrite Hk. split_and!; [done | by apply oldest_key_in | done].
Qed.

Lemma cleanup_length c p :
  length c <= S capacity -> length (fst (cleanup c p)) <= capacity.
Proof.
  intros H. destruct (decide (length c <= capacity)) as [Hle|Hgt].
  - by rewrite cleanup_within.
  - destruct (cleanup_over c p) as (k & _ & Hin & ->); [lia|]. simpl.
    apply length_del in Hin. lia.
Qed.

Lemma cleanup_wf c p : Dict.wf c -> Dict.wf (fst (cleanup c p)).
Proof.
  intros Hwf. unfold cleanup. case_bool_decide; [|done].
  destruct (oldest_key c); simpl; [by apply wf_del | done].
Qed.

(** Whatever the cleanup does, a key holds its entry or is gone. *)
Lemma cleanup_get c p k :
  Dict.wf c ->
  Dict.get k (fst (cleanup c p)) = Dict.get k c \/
  (Dict.get k (fst (cleanup c p)) = None /\ capacity < length c /\
   oldest_key c = Some k).
Proof.
  intros Hwf. unfold cleanup. case_bool_decide as Hlen; [|by left].
  destruct (oldest_key c) as [k'|] eqn:Hk; simpl; [|by left].
  destruct (decide (k' = k)) as [->|Hne].
  - right. split_and!; [by apply get_del_eq | done | done].
  - left. by apply get_del_ne.
Qed.

Lemma cleanup_get_other c p k' :
  oldest_key c <> Some k' ->
  Dict.get k' (fst (cleanup c p)) = Dict.get k' c.
Proof.
  intros Hk. unfold cleanup. case_bool_decide; [|done].
  destruct (oldest_key c) as [k0|]; simpl; [|done].
  apply get_del_ne. congruence.
Qed.
End CleanupFacts.

(** ** One call of the cache *)

Section CallFacts.
Context {V W : Type}.
Implicit Types (c : cache V) (p : proc W) (k : string).
Implicit Types (compute : proc W -> outcome V * proc W).

Lemma get_or_compute_hit k ttl compute now c p v t :
  Dict.get k c = Some (v, t) -> (now - t < ttl)%Z ->
  get_or_compute k ttl compute now c p =
  (Returned v, (c, log (LogInfo ("Cache hit para " +:+ k)) p)).
Proof.
  intros Hg Hlt. unfold get_or_compute. rewrite Hg.
  by rewrite bool_decide_eq_true_2.
Qed.

Lemma get_or_compute_miss k ttl compute now c p :
  misses k ttl now c ->
  get_or_compute k ttl compute now c p =
  compute_and_store k compute now c p.
Proof.
  intros [Hg | (v & t & Hg & Hge)]; unfold get_or_compute; rewrite Hg.
  - done.
  - by rewrite bool_decide_eq_false_2 by lia.
Qed.

Lemma hit_or_miss k ttl now c :
  misses k ttl now c \/
  exists v t, Dict.get k c = Some (v, t) /\ (now - t < ttl)%Z.
Proof.
  unfold misses. destruct (Dict.get k c) as [[v t]|]; [|left; by left].
  destruct (decide (now - t < ttl)%Z).
  - right. by exists v, t.
  - left. right. exists v, t. split; [done | lia].
Qed.

Lemma compute_and_store_returned k compute now c p v p1 :
  compute p = (Returned v, p1) ->
  compute_and_store k compute now c p =
  (Returned v, cleanup (Dict.set k (v, now) c) p1).
Proof. intros H. unfold compute_and_store. by rewrite H. Qed.

Lemma compute_and_store_raised k compute now c p e p1 :
  compute p = (Raised e, p1) ->
  compute_and_store k compute now c p = (Raised e, (c, p1)).
Proof. intros H. unfold compute_and_store. by rewrite H. Qed.

Lemma cleanup_world c p : world (snd (cleanup c p)) = world p.
Proof.
  unfold cleanup. case_bool_decide; [|done]. by destruct (oldest_key c).
Qed.

(** What a call leaves in the cache: the cache it found, or the cache
    with the new entry, cleaned up. *)
Lemma get_or_compute_cache k ttl compute now c p :
  fst (snd (get_or_compute k ttl compute now c p)) = c \/
  exists v p1, compute p = (Returned v, p1) /\ misses k ttl now c /\
    get_or_compute k ttl compute now c p =
    (Returned v, cleanup (Dict.set k (v, now) c) p1).
Proof.
  destruct (hit_or_miss k ttl now c) as [Hm | (v & t & Hg & Hlt)].
  - rewrite get_or_compute_miss by done.
    destruct (compute p) as [[v|e] p1] eqn:Hc.
    + right. exists v, p1. split_and!; [done | done |].
      by apply compute_and_store_returned.
    + left. by rewrite (compute_and_store_raised _ _ _ _ _ e p1).
  - left. by rewrite (get_or_compute_hit _ _ _ _ _ _ v t).
Qed.

(** In a cache within capacity, with a clock that does not run backwards,
    the entry a call stores is still there when the call returns. *)
Lemma stored_entry_kept k v now c p :
  length c <= capacity -> not_after now c ->
  Dict.get k (fst (cleanup (Dict.set k (v, now) c) p)) = Some (v, now).
Proof.
  intros Hlen Hna. destruct (decide (k ∈ Dict.keys c)) as [Hin|Hn].
  - rewrite cleanup_within; [apply get_set_eq|].
    by rewrite length_set_present.
  - destruct (decide (length (Dict.set k (v, now) c) <= capacity)).
    { rewrite cleanup_within by done. apply get_set_eq. }
    rewrite cleanup_get_other; [apply get_set_eq|].
    rewrite set_absent by done. rewrite oldest_key_snoc; [| |done].
    + intros Hk%oldest_key_in. done.
    + intros ->. simpl in *. unfold capacity in *. lia.
Qed.

Lemma wf_get_elem c k (e : entry V) :
  Dict.wf c -> (k, e) ∈ c -> Dict.get k c = Some e.
Proof.
  unfold Dict.wf. induction c as [|[k0 e0] c IH]; simpl.
  - intros _ H. by apply elem_of_nil in H.
  - intros [Hnotin Hnd]%NoDup_cons Hin.
    apply elem_of_cons in Hin as [[= -> ->]|Hin].
    + by rewrite decide_True.
    + rewrite decide_False; [by apply IH|].
      intros ->. apply Hnotin. by apply (list_elem_of_fmap_2 fst) in Hin.
Qed.

Lemma get_or_compute_wf k ttl compute now c p :
  Dict.wf c -> Dict.wf (fst (snd (get_or_compute k ttl compute now c p))).
Proof.
  intros Hwf.
  destruct (get_or_compute_cache k ttl compute now c p)
    as [-> | (v & p1 & _ & _ & ->)]; [done|].
  simpl. by apply cleanup_wf, wf_set.
Qed.

Lemma get_or_compute_length k ttl compute now c p :
  length c <= capacity ->
  length (fst (snd (get_or_compute k ttl compute now c p))) <= capacity.
Proof.
  intros Hlen.
  destruct (get_or_compute_cache k ttl compute now c p)
    as [-> | (v & p1 & _ & _ & ->)]; [done|].
  simpl. apply cleanup_length.
  pose proof (length_set_le c k (v, now)). lia.
Qed.

Lemma reachable_within (c : cache V) :
  reachable (W:=W) c -> length c <= capacity /\ Dict.wf c.
Proof.
  induction 1 as [|c i p _ [IHlen IHwf]].
  - split; [simpl; unfold capacity; lia | apply NoDup_nil_2].
  - split; [by apply get_or_compute_length | by apply get_or_compute_wf].
Qed.
End CallFacts.

(** ** Counting invocations *)

Section CountingFacts.
Context {V W : Type}.
Implicit Types (c : cache V) (p : proc (W * nat)) (k : string).
Implicit Types (f : proc W -> outcome V * proc W).

Lemma counted_invocations f p :
  invocations (snd (counted f p)) = S (invocations p).
Proof.
  unfold counted, invocations.
  by destruct (f {| logs := logs p; world := fst (world p) |}).
Qed.

Lemma invocations_hit k ttl f now c p v t :
  Dict.get k c = Some (v, t) -> (now - t < ttl)%Z ->
  invocations (snd (snd (get_or_compute k ttl (counted f) now c p))) =
  invocations p.
Proof.
  intros Hg Hlt. by rewrite (get_or_compute_hit _ _ _ _ _ _ v t).
Qed.

Lemma invocations_miss k ttl f now c p :
  misses k ttl now c ->
  invocations (snd (snd (get_or_compute k ttl (counted f) now c p))) =
  S (invocations p).
Proof.
  intros Hm. rewrite get_or_compute_miss by done.
  pose proof (counted_invocations f p) as Hc. unfold compute_and_store.
  destruct (counted f p) as [[v|e] p1]; simpl in *; [|done].
  unfold invocations in *. by rewrite cleanup_world.
Qed.
End CountingFacts.

(** ** Properties of the cache *)

Section Properties.
Context {V W : Type}.
Implicit Types (c : cache V) (k : string) (ttl now : Z).

(** C1 as amended.  Cache hit within the TTL.  For every cache, when [k]
    holds [(v, t)] and [now - t < ttl], the call returns [v] whatever the
    wrapped function is, and leaves the cache and the world as they were:
    the wrapped function is not entered (its invocation counter does not
    move).  Two calls under one key, the first a miss at [t0] whose
    function returns [v], on a cache of at most 50 entries that holds no
    timestamp later than [t0], the second at [t1] with [t1 - t0 < ttl],
    enter the function once and the second returns [v]. *)
Theorem hit_within_ttl :
  (forall k ttl (compute : proc W -> outcome V * proc W) now c p v t,
     Dict.get k c = Some (v, t) -> (now - t < ttl)%Z ->
     get_or_compute k ttl compute now c p =
     (Returned v, (c, log (LogInfo ("Cache hit para " +:+ k)) p))) /\
  (forall k ttl (f : proc W -> outcome V * proc W) now c p v t,
     Dict.get k c = Some (v, t) -> (now - t < ttl)%Z ->
     invocations (snd (snd (get_or_compute k ttl (counted f) now c p))) =
     invocations p) /\
  (forall k ttl (f : proc W -> outcome V * proc W) t0 t1 c p v,
     misses k ttl t0 c -> length c <= capacity -> not_after t0 c ->
     fst (counted f p) = Returned v -> (t1 - t0 < ttl)%Z ->
     exists c1 p1,
       get_or_compute k ttl (counted f) t0 c p = (Returned v, (c1, p1)) /\
       fst (get_or_compute k ttl (counted f) t1 c1 p1) = Returned v /\
       invocations (snd (snd (get_or_compute k ttl (counted f) t1 c1 p1)))
       = S (invocations p)).
Proof.
  split_and!.
  - intros. by apply (get_or_compute_hit _ _ _ _ _ _ v t).
  - intros. by apply (invocations_hit _ _ _ _ _ _ v t).
  - intros k ttl f t0 t1 c p v Hm Hlen Hna Hf Ht.
    pose proof (invocations_miss k ttl f t0 c p Hm) as Hinv.
    rewrite get_or_compute_miss in * by done.
    destruct (counted f p) as [o p1'] eqn:Hc. simpl in Hf. subst o.
    rewrite (compute_and_store_returned _ _ _ _ _ v p1') in * by done.
    destruct (cleanup (Dict.set k (v, t0) c) p1') as [c1 p1] eqn:Hcl.
    exists c1, p1. split; [done|].
    assert (Dict.get k c1 = Some (v, t0)) as Hg.
    { pose proof (stored_entry_kept k v t0 c p1' Hlen Hna) as Hk.
      by rewrite Hcl in Hk. }
    rewrite (get_or_compute_hit _ _ _ _ _ _ v t0) by done. done.
Qed.

(** C2.  Cache miss and overwrite of an expired entry.  When [k] is
    absent, or holds [(v0, t)] with [now - t >= ttl], and the wrapped
    function returns [v]: the call returns [v]; line 54 stores [(v, now)]
    under [k], touching no other key; an expired entry is overwritten
    where it stands (the keys and their order are unchanged, nothing is
    deleted first) and a new key goes last; the state after the call is
    that store followed by the cleanup of lines 57-61, after which [k]
    still holds [(v, now)] when the cache was within capacity and the
    clock has not run backwards.  Such a call enters the wrapped function
    exactly once, and a second call made when [t1 - t0 >= ttl] enters it
    a second time. *)
Theorem miss_computes_and_stores :
  (forall k ttl (compute : proc W -> outcome V * proc W) now c p v p1,
     misses k ttl now c -> compute p = (Returned v, p1) ->
     get_or_compute k ttl compute now c p =
       (Returned v, cleanup (Dict.set k (v, now) c) p1) /\
     Dict.get k (Dict.set k (v, now) c) = Some (v, now) /\
     (forall k', k <> k' ->
        Dict.get k' (Dict.set k (v, now) c) = Dict.get k' c) /\
     (k ∈ Dict.keys c ->
        Dict.keys (Dict.set k (v, now) c) = Dict.keys c) /\
     (k ∉ Dict.keys c -> Dict.set k (v, now) c = c ++ [(k, (v, now))]) /\
     (length c <= capacity -> not_after now c ->
        Dict.get k (fst (cleanup (Dict.set k (v, now) c) p1))
        = Some (v, now))) /\
  (forall k ttl (f : proc W -> outcome V * proc W) now c p,
     misses k ttl now c ->
     invocations (snd (snd (get_or_compute k ttl (counted f) now c p))) =
     S (invocations p)) /\
  (forall k ttl (f : proc W -> outcome V * proc W) t0 t1 c p v c1 p1,
     Dict.wf c -> misses k ttl t0 c ->
     get_or_compute k ttl (counted f) t0 c p = (Returned v, (c1, p1)) ->
     (t1 - t0 >= ttl)%Z ->
     invocations (snd (snd (get_or_compute k ttl (counted f) t1 c1 p1))) =
     S (S (invocations p))).
Proof.
  split_and!.
  - intros k ttl compute now c p v p1 Hm Hc. split_and!.
    + rewrite get_or_compute_miss by done.
      by apply compute_and_store_returned.
    + apply get_set_eq.
    + intros k' Hne. by apply get_set_ne.
    + apply keys_set_present.
    + apply set_absent.
    + apply stored_entry_kept.
  - intros. by apply invocations_miss.
  - intros k ttl f t0 t1 c p v c1 p1 Hwf Hm Hcall Ht.
    pose proof (invocations_miss k ttl f t0 c p Hm) as Hinv.
    rewrite Hcall in Hinv. simpl in Hinv. rewrite <- Hinv.
    apply invocations_miss.
    rewrite get_or_compute_miss in Hcall by done.
    unfold compute_and_store in Hcall.
    destruct (counted f p) as [[v'|e] p'] eqn:Hf; [|done].
    destruct (cleanup (Dict.set k (v', t0) c) p') as [c' p''] eqn:Hcl.
    injection Hcall as -> -> ->.
    pose proof (cleanup_get (Dict.set k (v, t0) c) p' k) as Hg.
    rewrite Hcl in Hg. simpl in Hg.
    destruct Hg as [Hg | [Hg _]]; [by apply wf_set | |by left].
    right. exists v, t0. rewrite Hg. split; [apply get_set_eq | done].
Qed.

(** C6.  A failure is not cached.  When the call takes the miss path and
    the wrapped function raises [e], the call raises that same [e] and
    the cache is the one it found: nothing stored, nothing evicted.  A
    later call under the same key, with a function that returns [v2], is
    again a miss: it returns [v2] and stores it. *)
Theorem failure_not_cached k ttl (compute : proc W -> outcome V * proc W)
    now c p e p1 :
  misses k ttl now c -> compute p = (Raised e, p1) ->
  get_or_compute k ttl compute now c p = (Raised e, (c, p1)) /\
  forall (compute2 : proc W -> outcome V * proc W) later p2 v2 p3,
    (now <= later)%Z -> compute2 p2 = (Returned v2, p3) ->
    misses k ttl later c /\
    get_or_compute k ttl compute2 later
      (fst (snd (get_or_compute k ttl compute now c p))) p2 =
    (Returned v2, cleanup (Dict.set k (v2, later) c) p3).
Proof.
  intros Hm Hc.
  assert (get_or_compute k ttl compute now c p = (Raised e, (c, p1))) as Heq.
  { rewrite get_or_compute_miss by done.
    by apply compute_and_store_raised. }
  split; [done|]. intros compute2 later p2 v2 p3 Hle Hc2.
  assert (misses k ttl later c) as Hm2.
  { destruct Hm as [Hg | (v & t & Hg & Hge)]; [by left|].
    right. exists v, t. split; [done | lia]. }
  split; [done|]. rewrite Heq. simpl.
  rewrite get_or_compute_miss by done.
  by apply compute_and_store_returned.
Qed.

(** C8.  A hit changes nothing in the cache.  On the hit path the cache
    after the call is the cache before it, so [k] still holds [(v, t)]
    with its original timestamp, and a later call is a miss as soon as
    [later - t >= ttl], however recent the hit was. *)
Theorem hit_leaves_cache_unchanged k ttl
    (compute : proc W -> outcome V * proc W) now c p v t :
  Dict.get k c = Some (v, t) -> (now - t < ttl)%Z ->
  fst (snd (get_or_compute k ttl compute now c p)) = c /\
  Dict.get k (fst (snd (get_or_compute k ttl compute now c p)))
    = Some (v, t) /\
  forall (compute' : proc W -> outcome V * proc W) later p',
    (later - t >= ttl)%Z ->
    get_or_compute k ttl compute' later
      (fst (snd (get_or_compute k ttl compute now c p))) p' =
    compute_and_store k compute' later c p'.
Proof.
  intros Hg Hlt. rewrite (get_or_compute_hit _ _ _ _ _ _ v t) by done.
  simpl. split_and!; [done | done |].
  intros compute' later p' Hge. apply get_or_compute_miss.
  right. by exists v, t.
Qed.
(** C3.  The capacity invariant.  Every cache reached from the empty one
    by completed calls holds at most 50 entries.  A call on such a cache
    does one of four things: (a) a hit, cache unchanged; (b) the wrapped
    function raises, cache unchanged; (c) it stores an entry and the cache
    still holds at most 50 entries: nothing is deleted and no cleanup is
    logged; (d) it stores an entry under a key that was not there, which
    makes 51 entries: exactly one key is deleted, one cleanup is logged,
    and 50 entries remain.  So an eviction takes place exactly when the
    insertion brings the cache above 50 entries, and never on an
    overwrite. *)
Theorem capacity_invariant :
  (forall c, reachable (W:=W) c -> length c <= 50) /\
  (forall c (i : invocation V W) p, reachable (W:=W) c ->
     length (fst (snd (invoke i c p))) <= 50 /\
     ((exists v t, Dict.get (inv_key i) c = Some (v, t) /\
         (inv_time i - t < inv_ttl i)%Z /\
         invoke i c p =
         (Returned v,
          (c, log (LogInfo ("Cache hit para " +:+ inv_key i)) p))) \/
      (exists e p1, inv_compute i p = (Raised e, p1) /\
         invoke i c p = (Raised e, (c, p1))) \/
      (exists v p1, inv_compute i p = (Returned v, p1) /\
         length (Dict.set (inv_key i) (v, inv_time i) c) <= 50 /\
         invoke i c p =
         (Returned v, (Dict.set (inv_key i) (v, inv_time i) c, p1))) \/
      (exists v p1 k0, inv_compute i p = (Returned v, p1) /\
         ~ (inv_key i ∈ Dict.keys c) /\
         length (Dict.set (inv_key i) (v, inv_time i) c) = 51 /\
         k0 ∈ Dict.keys (Dict.set (inv_key i) (v, inv_time i) c) /\
         length (Dict.del k0 (Dict.set (inv_key i) (v, inv_time i) c))
           = 50 /\
         invoke i c p =
         (Returned v,
          (Dict.del k0 (Dict.set (inv_key i) (v, inv_time i) c),
           log (LogInfo "Cache cleanup ejecutado") p1))))).
Proof.
  split.
  - intros c Hr. by apply reachable_within in Hr as [? _].
  - intros c [k ttl compute now] p [Hlen Hwf]%reachable_within.
    unfold invoke. simpl. split; [by apply get_or_compute_length|].
    destruct (hit_or_miss k ttl now c) as [Hm | (v & t & Hg & Hlt)].
    2:{ left. exists v, t. split_and!; [done | done |].
        by apply get_or_compute_hit with (t := t). }
    right. rewrite get_or_compute_miss by done.
    destruct (compute p) as [[v|e] p1] eqn:Hc.
    2:{ left. exists e, p1. split; [done|].
        by apply compute_and_store_raised. }
    right. rewrite (compute_and_store_returned _ _ _ _ _ v p1) by done.
    destruct (decide (length (Dict.set k (v, now) c) <= capacity)) as [Hle|Hgt].
    + left. exists v, p1. split_and!; [done | done |].
      by rewrite cleanup_within.
    + right. destruct (cleanup_over (Dict.set k (v, now) c) p1)
        as (k0 & _ & Hin & Hcl); [lia|].
      assert (k ∉ Dict.keys c) as Hn.
      { intros Hin'. apply Hgt. by rewrite length_set_present. }
      pose proof (length_set_absent c k (v, now) Hn) as Hs.
      pose proof (length_del _ _ Hin) as Hd. unfold capacity in *.
      exists v, p1, k0. rewrite Hcl. split_and!; [done | done | lia | done | lia | done].
Qed.


(** C7 as amended.  A call on [k1] leaves the entry of any other key [k2]
    as it was, except when [k2] is the key that the call evicts: the call
    stored an entry, the cache then held more than 50 entries, and [k2]
    was the oldest key.  In particular the call never puts an entry
    under [k2], never changes the value or timestamp under [k2], and
    leaves [k2] alone when the cache holds fewer than 50 entries. *)
Theorem other_key_kept_unless_evicted k1 k2 ttl
    (compute : proc W -> outcome V * proc W) now c p :
  k1 <> k2 -> Dict.wf c ->
  (Dict.get k2 (fst (snd (get_or_compute k1 ttl compute now c p)))
     = Dict.get k2 c \/
   (Dict.get k2 (fst (snd (get_or_compute k1 ttl compute now c p))) = None /\
    exists v p1, misses k1 ttl now c /\ compute p = (Returned v, p1) /\
      50 < length (Dict.set k1 (v, now) c) /\
      oldest_key (Dict.set k1 (v, now) c) = Some k2)) /\
  (forall e,
     Dict.get k2 (fst (snd (get_or_compute k1 ttl compute now c p)))
       = Some e -> Dict.get k2 c = Some e) /\
  (length c < 50 ->
   Dict.get k2 (fst (snd (get_or_compute k1 ttl compute now c p)))
     = Dict.get k2 c).
Proof.
  intros Hne Hwf.
  assert (Dict.get k2 (fst (snd (get_or_compute k1 ttl compute now c p)))
            = Dict.get k2 c \/
          (Dict.get k2 (fst (snd (get_or_compute k1 ttl compute now c p)))
             = None /\
           exists v p1, misses k1 ttl now c /\ compute p = (Returned v, p1) /\
             50 < length (Dict.set k1 (v, now) c) /\
             oldest_key (Dict.set k1 (v, now) c) = Some k2)) as Hmain.
  { destruct (get_or_compute_cache k1 ttl compute now c p)
      as [-> | (v & p1 & Hc & Hm & ->)]; [by left|]. simpl.
    destruct (cleanup_get (Dict.set k1 (v, now) c) p1 k2)
      as [Hg | (Hg & Hlen & Hold)]; [by apply wf_set | |].
    - left. rewrite Hg. by apply get_set_ne.
    - right. split; [done|]. by exists v, p1. }
  split_and!; [done | |].
  - intros e He. destruct Hmain as [<- | [Hn _]]; [done | congruence].
  - intros Hlen. destruct Hmain as [? | (_ & v & p1 & _ & _ & Hl & _)]; [done|].
    pose proof (length_set_le c k1 (v, now)). lia.
Qed.
End Properties.

(** ** Runs of calls under distinct keys *)

Section RunFacts.
Context {V W : Type}.
Implicit Types (c : cache V) (p : proc W) (calls : list (invocation V W)).

Lemma run_cons (i : invocation V W) calls c p :
  run (i :: calls) c p =
  (fst (invoke i c p)
     :: fst (run calls (fst (snd (invoke i c p))) (snd (snd (invoke i c p)))),
   snd (run calls (fst (snd (invoke i c p))) (snd (snd (invoke i c p))))).
Proof.
  simpl. destruct (invoke i c p) as [o [c' p']]. simpl.
  by destruct (run calls c' p').
Qed.

(** A call under a key that is not in the cache, whose function
    returns. *)
Lemma invoke_absent (i : invocation V W) c p v :
  inv_key i ∉ Dict.keys c -> fst (invoke i c p) = Returned v ->
  fst (snd (invoke i c p)) =
  fst (cleanup (c ++ [(inv_key i, (v, inv_time i))])
         (snd (inv_compute i p))).
Proof.
  intros Hn Ho. unfold invoke in *.
  rewrite get_or_compute_miss in * by (left; by apply get_None).
  unfold compute_and_store in *.
  destruct (inv_compute i p) as [[v'|e] p1]; simpl in *; [|done].
  injection Ho as ->. by rewrite set_absent.
Qed.

(** While there is room, calls under new keys append their entries. *)
Lemma run_appends calls : forall (vs : list V) c p,
  NoDup (map inv_key calls) ->
  (forall i, i ∈ calls -> inv_key i ∉ Dict.keys c) ->
  length c + length calls <= capacity ->
  fst (run calls c p) = map Returned vs ->
  fst (snd (run calls c p)) = c ++ entries_of calls vs.
Proof.
  induction calls as [|i calls IH]; intros vs c p Hnd Hfresh Hlen Hout.
  - simpl. by rewrite app_nil_r.
  - rewrite run_cons in *. simpl in Hout, Hlen.
    destruct vs as [|v vs]; [done|]. simpl in Hout.
    injection Hout as Ho Hos. simpl in Hnd.
    apply NoDup_cons in Hnd as [Hi Hnd].
    assert (inv_key i ∉ Dict.keys c) as Hic by (apply Hfresh; left).
    pose proof (invoke_absent i c p v Hic Ho) as Hc1.
    rewrite cleanup_within in Hc1 by (rewrite length_app; simpl; lia).
    simpl in Hc1. simpl. rewrite Hc1.
    rewrite (IH vs); [by rewrite <- app_assoc | done | | | by rewrite <- Hc1].
    + intros j Hj. unfold Dict.keys. rewrite map_app. simpl.
      rewrite elem_of_app, list_elem_of_singleton.
      intros [Hjc | Heq].
      * by apply (Hfresh j); [right|].
      * apply Hi. rewrite <- Heq. by apply (list_elem_of_fmap_2 inv_key).
    + rewrite length_app. simpl. lia.
Qed.

Lemma run_length calls : forall c p,
  length (fst (run calls c p)) = length calls.
Proof.
  induction calls as [|i calls IH]; intros c p; [done|].
  rewrite run_cons. simpl. by rewrite IH.
Qed.

Lemma run_snoc calls (x : invocation V W) : forall c p,
  fst (run (calls ++ [x]) c p) =
    fst (run calls c p)
    ++ [fst (invoke x (fst (snd (run calls c p)))
               (snd (snd (run calls c p))))] /\
  fst (snd (run (calls ++ [x]) c p)) =
    fst (snd (invoke x (fst (snd (run calls c p)))
                (snd (snd (run calls c p))))).
Proof.
  induction calls as [|i calls IH]; intros c p.
  - simpl. by destruct (invoke x c p) as [o [c' p']].
  - rewrite <- app_comm_cons, !run_cons. simpl.
    destruct (IH (fst (snd (invoke i c p))) (snd (snd (invoke i c p))))
      as [-> ->]. done.
Qed.

Lemma keys_entries_of calls : forall (vs : list V),
  length vs = length calls ->
  Dict.keys (entries_of calls vs) = map inv_key calls.
Proof.
  induction calls as [|i calls IH]; intros [|v vs] Hlen; try done.
  simpl. f_equal. apply IH. simpl in Hlen. lia.
Qed.

Lemma times_entries_of calls : forall (vs : list V),
  length vs = length calls ->
  map (fun kv => snd (snd kv)) (entries_of calls vs) = map inv_time calls.
Proof.
  induction calls as [|i calls IH]; intros [|v vs] Hlen; try done.
  simpl. f_equal. apply IH. simpl in Hlen. lia.
Qed.

Lemma entries_of_snoc calls (x : invocation V W) (vs : list V) v :
  length vs = length calls ->
  entries_of (calls ++ [x]) (vs ++ [v]) =
  entries_of calls vs ++ [(inv_key x, (v, inv_time x))].
Proof. intros Hlen. unfold entries_of. by rewrite zip_with_app. Qed.

(** The cleanup of a cache that is one entry above capacity and whose
    first entry is as old as any: the first entry goes. *)
Lemma cleanup_drops_head (kv : string * entry V) rest p :
  length (kv :: rest) = S capacity ->
  Forall (fun x => (snd (snd kv) <= snd (snd x))%Z) rest ->
  fst (cleanup (kv :: rest) p) = rest.
Proof.
  intros Hlen Hall. unfold cleanup.
  rewrite bool_decide_eq_true_2 by lia.
  unfold oldest_key. rewrite min_by_timestamp_first by done.
  destruct kv as [k e]. simpl. by rewrite decide_True.
Qed.

Lemma run_overflow calls (x : invocation V W) (vs : list V) v p :
  length calls = capacity ->
  NoDup (map inv_key (calls ++ [x])) ->
  Sorted Z.le (map inv_time (calls ++ [x])) ->
  fst (run (calls ++ [x]) [] p) = map Returned (vs ++ [v]) ->
  length vs = length calls /\
  fst (snd (run (calls ++ [x]) [] p)) =
  tail (entries_of (calls ++ [x]) (vs ++ [v])).
Proof.
  intros Hlen Hnd Hs Hout.
  destruct (run_snoc calls x [] p) as [Ho Hc]. rewrite Ho in Hout.
  rewrite map_app in Hout. simpl in Hout.
  assert (length vs = length calls) as Hvs.
  { apply (f_equal length) in Hout. rewrite !length_app in Hout.
    rewrite run_length, length_map in Hout. simpl in Hout. lia. }
  apply app_inj_1 in Hout as [Hout1 Hout2];
    [|by rewrite run_length, length_map].
  injection Hout2 as Hx.
  rewrite map_app in Hnd. apply NoDup_app in Hnd as (Hnd1 & Hdisj & _).
  assert (fst (snd (run calls [] p)) = entries_of calls vs) as Hc50.
  { apply (run_appends calls vs [] p);
      [done | intros; apply not_elem_of_nil | simpl; lia | done]. }
  split; [done|]. rewrite Hc. rewrite entries_of_snoc by done.
  rewrite Hc50 in *.
  rewrite (invoke_absent x _ _ v); [| |done].
  2:{ rewrite keys_entries_of by done. intros Hin.
      apply (Hdisj _ Hin). simpl. left. }
  remember (entries_of calls vs) as c50 eqn:Hc50'.
  destruct c50 as [|kv rest].
  { apply (f_equal length) in Hc50'. unfold entries_of in Hc50'.
    rewrite length_zip_with in Hc50'. simpl in Hc50'.
    unfold capacity in *. lia. }
  simpl. apply cleanup_drops_head.
  - simpl. rewrite length_app. simpl.
    apply (f_equal length) in Hc50'. unfold entries_of in Hc50'.
    rewrite length_zip_with in Hc50'. simpl in Hc50'. lia.
  - apply Sorted_StronglySorted in Hs; [|intros ???; lia].
    rewrite <- (times_entries_of (calls ++ [x]) (vs ++ [v])) in Hs
      by (rewrite !length_app; simpl; lia).
    rewrite entries_of_snoc, <- Hc50' in Hs by done. simpl in Hs.
    apply StronglySorted_inv in Hs as [_ Hall].
    rewrite Forall_map in Hall. exact Hall.
Qed.
End RunFacts.

(** ** Scenarios *)

Section Scenarios.
Context {A V W : Type} (repr : A -> string).

(** C5.  Eviction at capacity.  Fifty-one calls under distinct keys, on
    the empty cache, with a clock that never goes back, each returning a
    value: the cache ends with exactly 50 entries, those of calls 2 to 51
    in order; the key of the first call is absent and every other key
    holds the value its call returned, with the time of that call. *)
Theorem eviction_at_capacity (calls : list (invocation V W))
    (vs : list V) (p : proc W) :
  length calls = 51 ->
  NoDup (map inv_key calls) ->
  Sorted Z.le (map inv_time calls) ->
  fst (run calls [] p) = map Returned vs ->
  fst (snd (run calls [] p)) = tail (entries_of calls vs) /\
  length (fst (snd (run calls [] p))) = 50 /\
  (forall i0, head calls = Some i0 ->
     Dict.get (inv_key i0) (fst (snd (run calls [] p))) = None) /\
  (forall n i v, 0 < n -> calls !! n = Some i -> vs !! n = Some v ->
     Dict.get (inv_key i) (fst (snd (run calls [] p)))
     = Some (v, inv_time i)).
Proof.
  intros Hlen Hnd Hs Hout.
  assert (length vs = length calls) as Hvs.
  { apply (f_equal length) in Hout.
    by rewrite run_length, length_map in Hout. }
  assert (fst (snd (run calls [] p)) = tail (entries_of calls vs)) as ->.
  { destruct calls as [|x calls _] using rev_ind; [simpl in Hlen; lia|].
    rewrite length_app in Hlen, Hvs. simpl in Hlen, Hvs.
    destruct vs as [|v vs _] using rev_ind; [simpl in Hvs; lia|].
    apply run_overflow; [unfold capacity; lia | done | done | done]. }
  assert (Dict.wf (entries_of calls vs)) as Hwf.
  { unfold Dict.wf. by rewrite keys_entries_of. }
  destruct calls as [|i0 calls]; [done|]. destruct vs as [|v0 vs]; [done|].
  simpl in *. unfold Dict.wf in Hwf. simpl in Hwf.
  apply NoDup_cons in Hwf as [Hhead Hwf]. split_and!.
  - done.
  - unfold entries_of. rewrite length_zip_with. lia.
  - intros ? [= <-]. by apply get_None.
  - intros [|n] i v Hn Hi Hv; [lia|]. simpl in Hi, Hv.
    apply wf_get_elem; [done|].
    apply list_elem_of_lookup. exists n. unfold entries_of.
    rewrite lookup_zip_with, Hi. simpl. by rewrite Hv.
Qed.

(** C9.  Error responses are cached by the routes.  Under
    [@cache_response] above [@handle_errors], a view that raises an
    [Exception] reaches the cache as a function that returns the 500
    response.  On a miss that response is stored under the key, and a
    second call under the same key within the TTL returns the stored
    response from the cache, for any view of that name: the view is not
    entered again. *)
Theorem error_response_is_cached {T : Type} ttl (f : handler A W T)
    req args kwargs t0 t1 c p msg p1 :
  call f args kwargs p = (Raised (OtherException msg), p1) ->
  misses (cache_key repr (fn_name f) req args) ttl t0 c ->
  length c <= capacity -> not_after t0 c -> (t1 - t0 < ttl)%Z ->
  (forall args' kwargs' p',
     (forall m, fst (call f args' kwargs' p') <> Raised (NonException m)) ->
     exists r, fst (call (handle_errors f) args' kwargs' p') = Returned r) /\
  call (handle_errors f) args kwargs p =
    (Returned (JsonStatus server_error_body 500),
     log (LogError ("Error en " +:+ fn_name f +:+ ": " +:+ msg)) p1) /\
  exists c1 p2,
    cached_route repr ttl f req args kwargs t0 c p =
      (Returned (JsonStatus server_error_body 500), (c1, p2)) /\
    Dict.get (cache_key repr (fn_name f) req args) c1 =
      Some (JsonStatus server_error_body 500, t0) /\
    forall (g : handler A W T) kwargs' p3, fn_name g = fn_name f ->
      cached_route repr ttl g req args kwargs' t1 c1 p3 =
      (Returned (JsonStatus server_error_body 500),
       (c1, log (LogInfo ("Cache hit para "
                       +:+ cache_key repr (fn_name f) req args)) p3)).
Proof.
  intros Hf Hm Hlen Hna Ht.
  assert (call (handle_errors f) args kwargs p =
    (Returned (JsonStatus server_error_body 500),
     log (LogError ("Error en " +:+ fn_name f +:+ ": " +:+ msg)) p1)) as Hh.
  { simpl. by rewrite Hf. }
  split.
  { intros args' kwargs' p' Hexc. simpl.
    destruct (call f args' kwargs' p') as [[v|[m|m|m]] q]; simpl in *;
      [by eexists.. |]. by destruct (Hexc m). }
  split; [done|]. unfold cached_route, cache_response.
  change (fn_name (handle_errors f)) with (fn_name f).
  rewrite get_or_compute_miss by done.
  rewrite (compute_and_store_returned _ _ _ _ _ _ _ Hh).
  destruct (cleanup _ _) as [c1 p2] eqn:Hcl. exists c1, p2.
  assert (Dict.get (cache_key repr (fn_name f) req args) c1 =
            Some (JsonStatus (T:=T) server_error_body 500, t0)) as Hg.
  { pose proof (stored_entry_kept (cache_key repr (fn_name f) req args)
      (JsonStatus (T:=T) server_error_body 500) t0 c
      (log (LogError ("Error en " +:+ fn_name f +:+ ": " +:+ msg)) p1)
      Hlen Hna) as Hk.
    by rewrite Hcl in Hk. }
  split_and!; [done | done |]. intros g kwargs' p3 Hname.
  change (fn_name (handle_errors g)) with (fn_name g). rewrite Hname.
  by apply get_or_compute_hit with (t := t0).
Qed.

(** C10.  Keyword arguments are not part of the key.  The key is made of
    the name, the method, the path and [str(args)].  Whenever the key of
    [(f, req, args)] holds an entry younger than the TTL, a call returns
    its value whatever the keyword arguments are.  So after a miss under
    keyword arguments [kw1] that returned [v], a call of the same function
    with the same request and positional arguments within the TTL returns
    [v] from the cache whatever its keyword arguments [kw2] are, without
    entering the function. *)
Theorem kwargs_not_in_key :
  (forall (f : handler A W V) req args,
     cache_key repr (fn_name f) req args =
     fn_name f +:+ "_" +:+ method req +:+ "_" +:+ path req +:+ "_"
     +:+ str_args repr args) /\
  (forall ttl (f : handler A W V) req args kw now c p v t,
     Dict.get (cache_key repr (fn_name f) req args) c = Some (v, t) ->
     (now - t < ttl)%Z ->
     cache_response repr ttl f req args kw now c p =
     (Returned v,
      (c, log (LogInfo ("Cache hit para "
                        +:+ cache_key repr (fn_name f) req args)) p))) /\
  (forall ttl (f : handler A W V) req args kw1 kw2 t0 t1 c p v p1,
     call f args kw1 p = (Returned v, p1) ->
     misses (cache_key repr (fn_name f) req args) ttl t0 c ->
     length c <= capacity -> not_after t0 c -> (t1 - t0 < ttl)%Z ->
     exists c1 p2,
       cache_response repr ttl f req args kw1 t0 c p
         = (Returned v, (c1, p2)) /\
       forall p3,
         cache_response repr ttl f req args kw2 t1 c1 p3 =
         (Returned v,
          (c1, log (LogInfo ("Cache hit para "
                             +:+ cache_key repr (fn_name f) req args)) p3))).
Proof.
  split_and!; [done | |].
  - intros ttl f req args kw now c p v t Hg Hlt. unfold cache_response.
    by apply get_or_compute_hit with (t := t).
  - intros ttl f req args kw1 kw2 t0 t1 c p v p1 Hf Hm Hlen Hna Ht.
    unfold cache_response. rewrite get_or_compute_miss by done.
    rewrite (compute_and_store_returned _ _ _ _ _ _ _ Hf).
    destruct (cleanup _ _) as [c1 p2] eqn:Hcl. exists c1, p2.
    split; [done|]. intros p3.
    apply get_or_compute_hit with (t := t0); [|done].
    pose proof (stored_entry_kept (cache_key repr (fn_name f) req args)
      v t0 c p1 Hlen Hna) as Hk.
    by rewrite Hcl in Hk.
Qed.
End Scenarios.

(** ** The properties on concrete caches *)

Import Fixtures.

Lemma full_cache_wf : Dict.wf full_cache.
Proof. unfold Dict.wf. compute_done. Qed.

Lemma full_cache_reachable : reachable (W:=unit) full_cache.
Proof.
  assert (forall n, n <= 50 ->
    reachable (W:=unit) (map (fun n => (key_of n, (n, Z.of_nat n))) (seq 0 n)))
    as H.
  { induction n as [|n IH]; intros Hn; [apply reachable_empty|].
    specialize (IH ltac:(lia)).
    apply (reachable_call _
      {| inv_key := key_of n; inv_ttl := 600; inv_compute := const n;
         inv_time := Z.of_nat n |} quiet) in IH.
    replace (map (fun n => (key_of n, (n, Z.of_nat n))) (seq 0 (S n)))
      with (fst (snd (invoke
        {| inv_key := key_of n; inv_ttl := 600; inv_compute := const n;
           inv_time := Z.of_nat n |}
        (map (fun n => (key_of n, (n, Z.of_nat n))) (seq 0 n)) quiet)));
      [done|].
    clear IH. do 50 (destruct n as [|n]; [by vm_compute|]). lia. }
  apply (H 50). lia.
Qed.

(** When every entry of a full cache is later than the clock reading of the
    call, the entry that the call stores is the oldest: the cleanup of the
    same call deletes it.  (The call still returns the computed value.) *)
Example stored_entry_is_the_victim :
  get_or_compute (key_of 50) 600 (const 50) 50 late_cache quiet =
  (Returned 50, (late_cache, log (LogInfo "Cache cleanup ejecutado") quiet)).
Proof. by vm_compute. Qed.

Lemma late_cache_reachable : reachable (W:=unit * nat) late_cache.
Proof.
  assert (forall n, n <= 50 ->
    reachable (W:=unit * nat)
      (map (fun n => (key_of n, (n, 100%Z))) (seq 0 n))) as H.
  { induction n as [|n IH]; intros Hn; [apply reachable_empty|].
    specialize (IH ltac:(lia)).
    apply (reachable_call _
      {| inv_key := key_of n; inv_ttl := 600;
         inv_compute := counted (const n); inv_time := 100 |} quiet0) in IH.
    replace (map (fun n => (key_of n, (n, 100%Z))) (seq 0 (S n)))
      with (fst (snd (invoke
        {| inv_key := key_of n; inv_ttl := 600;
           inv_compute := counted (const n); inv_time := 100 |}
        (map (fun n => (key_of n, (n, 100%Z))) (seq 0 n)) quiet0)));
      [done|].
    clear IH. do 50 (destruct n as [|n]; [by vm_compute|]). lia. }
  apply (H 50). lia.
Qed.

(** C1 as stated fails.  The cache [late_cache] is what 50 calls that all
    read the clock at 100 make of the empty cache.  The clock then reads 50
    and 51: two calls under the new key ["b"] with a TTL of 600 are well
    within the TTL of each other.  The first is a miss and returns 7, but
    the entry it stores is the oldest and its own cleanup deletes it, so
    the second call is a miss as well: the function is entered twice. *)
Lemma two_calls_within_ttl_counterexample :
  reachable (W:=unit * nat) late_cache /\
  misses (key_of 50) 600 50 late_cache /\ (51 - 50 < 600)%Z /\
  fst (get_or_compute (key_of 50) 600 (counted (const 7)) 50
         late_cache quiet0) = Returned 7 /\
  fst (snd (get_or_compute (key_of 50) 600 (counted (const 7)) 50
              late_cache quiet0)) = late_cache /\
  invocations
    (snd (snd (get_or_compute (key_of 50) 600 (counted (const 7)) 51
      (fst (snd (get_or_compute (key_of 50) 600 (counted (const 7)) 50
                   late_cache quiet0)))
      (snd (snd (get_or_compute (key_of 50) 600 (counted (const 7)) 50
                   late_cache quiet0)))))) = 2.
Proof.
  split_and!.
  - apply late_cache_reachable.
  - by left.
  - lia.
  - by vm_compute.
  - by vm_compute.
  - by vm_compute.
Qed.

Lemma hit_within_ttl_witness :
  (Dict.get "k" small_cache = Some (7, 0%Z) /\ (5 - 0 < 10)%Z /\
   get_or_compute "k" 10 raising 5 small_cache quiet =
   (Returned 7, (small_cache, log (LogInfo ("Cache hit para " +:+ "k")) quiet))) /\
  (exists c1 p1,
     get_or_compute "k" 10 (counted (const 7)) 0 [] quiet0
       = (Returned 7, (c1, p1)) /\
     fst (get_or_compute "k" 10 (counted (const 7)) 9 c1 p1) = Returned 7 /\
     invocations (snd (snd (get_or_compute "k" 10 (counted (const 7)) 9 c1 p1)))
       = S (invocations quiet0)).
Proof.
  split.
  - split_and!; [reflexivity | lia |].
    apply (proj1 hit_within_ttl) with (t := 0%Z); [reflexivity | lia].
  - apply (proj2 (proj2 hit_within_ttl));
      [left; reflexivity | simpl; unfold capacity; lia | constructor
      | reflexivity | lia].
Defined.

Lemma miss_computes_and_stores_witness :
  misses "k" 10 20 small_cache /\
  get_or_compute "k" 10 (const 8) 20 small_cache quiet =
    (Returned 8, cleanup (Dict.set "k" (8, 20%Z) small_cache) quiet) /\
  Dict.get "k" (Dict.set "k" (8, 20%Z) small_cache) = Some (8, 20%Z) /\
  Dict.keys (Dict.set "k" (8, 20%Z) small_cache) = Dict.keys small_cache /\
  invocations (snd (snd
    (get_or_compute "k" 10 (counted (const 8)) 20 small_cache quiet0))) = 1.
Proof.
  assert (misses "k" 10 20 small_cache) as Hm.
  { right. exists 7, 0%Z. split; [reflexivity | lia]. }
  destruct (proj1 miss_computes_and_stores "k" 10%Z (const 8) 20%Z small_cache
              quiet 8 quiet Hm eq_refl) as (H1 & H2 & _ & H4 & _).
  split_and!; [exact Hm | exact H1 | exact H2 | |].
  - apply H4. compute_done.
  - apply (proj1 (proj2 miss_computes_and_stores) "k" 10%Z (const 8) 20%Z
             small_cache quiet0 Hm).
Defined.

Lemma capacity_invariant_witness :
  reachable (W:=unit) full_cache /\ length full_cache <= 50 /\
  length (fst (snd (invoke (nth_call 50) full_cache quiet))) <= 50.
Proof.
  split_and!.
  - apply full_cache_reachable.
  - apply (proj1 (capacity_invariant (W:=unit))), full_cache_reachable.
  - apply (proj2 (capacity_invariant (W:=unit)) full_cache (nth_call 50) quiet),
      full_cache_reachable.
Defined.


Lemma eviction_at_capacity_witness :
  length series = 51 /\ NoDup (map inv_key series) /\
  Sorted Z.le (map inv_time series) /\
  fst (run series [] quiet) = map Returned (seq 0 51) /\
  fst (snd (run series [] quiet)) = tail (entries_of series (seq 0 51)) /\
  length (fst (snd (run series [] quiet))) = 50 /\
  Dict.get (key_of 0) (fst (snd (run series [] quiet))) = None /\
  Dict.get (key_of 1) (fst (snd (run series [] quiet))) = Some (1, 0%Z) /\
  Dict.get (key_of 50) (fst (snd (run series [] quiet))) = Some (50, 25%Z).
Proof.
  assert (NoDup (map inv_key series)) as Hnd by compute_done.
  assert (Sorted Z.le (map inv_time series)) as Hs by compute_done.
  assert (fst (run series [] quiet) = map Returned (seq 0 51)) as Hout
    by (by vm_compute).
  destruct (eviction_at_capacity series (seq 0 51) quiet eq_refl Hnd Hs Hout)
    as (H1 & H2 & H3 & H4).
  split_and!; [reflexivity | exact Hnd | exact Hs | exact Hout | exact H1
              | exact H2 | | |].
  - apply (H3 (nth_call 0)). reflexivity.
  - apply (H4 1 (nth_call 1) 1); [lia | reflexivity | reflexivity].
  - apply (H4 50 (nth_call 50) 50); [lia | reflexivity | reflexivity].
Defined.

Lemma failure_not_cached_witness :
  misses "k" 10 20 small_cache /\
  get_or_compute "k" 10 raising 20 small_cache quiet
    = (Raised (OtherException "boom"), (small_cache, quiet)) /\
  get_or_compute "k" 10 (const 8) 21
    (fst (snd (get_or_compute "k" 10 raising 20 small_cache quiet))) quiet
    = (Returned 8, cleanup (Dict.set "k" (8, 21%Z) small_cache) quiet).
Proof.
  assert (misses "k" 10 20 small_cache) as Hm.
  { right. exists 7, 0%Z. split; [reflexivity | lia]. }
  destruct (failure_not_cached "k" 10%Z raising 20%Z small_cache quiet
              (OtherException "boom") quiet Hm eq_refl) as [H1 H2].
  split_and!; [exact Hm | exact H1 |].
  apply (H2 (const 8) 21%Z quiet 8 quiet); [lia | reflexivity].
Defined.

(** C7 as stated fails.  The cache is full; key ["0"] holds [(0, 0)].  A
    call under the other key ["b"] stores its entry and the cleanup deletes
    key ["0"]. *)
Lemma key_isolation_counterexample :
  key_of 50 <> key_of 0 /\
  Dict.get (key_of 0) full_cache = Some (0, 0%Z) /\
  Dict.get (key_of 0)
    (fst (snd (get_or_compute (key_of 50) 600 (const 50) 50 full_cache quiet)))
  = None.
Proof. split_and!; [discriminate | by vm_compute | by vm_compute]. Qed.

Lemma other_key_kept_unless_evicted_witness :
  key_of 50 <> key_of 1 /\ Dict.wf full_cache /\
  Dict.get (key_of 1)
    (fst (snd (get_or_compute (key_of 50) 600 (const 50) 50 full_cache quiet)))
  = Some (1, 1%Z).
Proof.
  assert (key_of 50 <> key_of 1) as Hne by discriminate.
  destruct (other_key_kept_unless_evicted (key_of 50) (key_of 1) 600%Z
              (const 50) 50%Z full_cache quiet Hne full_cache_wf)
    as ([H | (_ & v & p1 & _ & _ & _ & Hold)] & _ & _).
  - split_and!; [exact Hne | apply full_cache_wf |].
    rewrite H. reflexivity.
  - exfalso. revert Hold. destruct v; vm_compute; discriminate.
Defined.

Lemma hit_leaves_cache_unchanged_witness :
  Dict.get "k" small_cache = Some (7, 0%Z) /\ (5 - 0 < 10)%Z /\
  fst (snd (get_or_compute "k" 10 raising 5 small_cache quiet)) = small_cache /\
  get_or_compute "k" 10 (const 8) 10
    (fst (snd (get_or_compute "k" 10 raising 5 small_cache quiet))) quiet =
  compute_and_store "k" (const 8) 10 small_cache quiet.
Proof.
  destruct (hit_leaves_cache_unchanged "k" 10%Z raising 5%Z small_cache quiet
              7 0%Z eq_refl ltac:(lia)) as (H1 & _ & H3).
  split_and!; [reflexivity | lia | exact H1 |].
  apply (H3 (const 8) 10%Z quiet). lia.
Defined.

Lemma error_response_is_cached_witness :
  call failing [] [] quiet = (Raised (OtherException "boom"), quiet) /\
  exists c1 p2,
    cached_route key_of 600 failing root [] [] 0 [] quiet =
      (Returned (JsonStatus server_error_body 500), (c1, p2)) /\
    Dict.get (cache_key key_of "home" root []) c1 =
      Some (JsonStatus server_error_body 500, 0%Z) /\
    fst (cached_route key_of 600 failing root [] [] 10 c1 quiet) =
      Returned (JsonStatus server_error_body 500).
Proof.
  split; [reflexivity|].
  destruct (error_response_is_cached key_of 600%Z failing root [] [] 0%Z 10%Z
              [] quiet "boom" quiet eq_refl)
    as (_ & _ & c1 & p2 & H1 & H2 & H3);
    [left; reflexivity | simpl; unfold capacity; lia | constructor | lia |].
  exists c1, p2. split_and!; [exact H1 | exact H2 |].
  rewrite (H3 failing [] quiet eq_refl). reflexivity.
Defined.

Lemma kwargs_not_in_key_witness :
  call first_kwarg [] [("x", 1)] quiet = (Returned 1, quiet) /\
  call first_kwarg [] [("x", 2)] quiet = (Returned 2, quiet) /\
  exists c1 p2,
    cache_response key_of 600 first_kwarg root [] [("x", 1)] 0 [] quiet
      = (Returned 1, (c1, p2)) /\
    fst (cache_response key_of 600 first_kwarg root [] [("x", 2)] 10 c1 quiet)
      = Returned 1.
Proof.
  split; [reflexivity|]. split; [reflexivity|].
  destruct (proj2 (proj2 (kwargs_not_in_key key_of)) 600%Z first_kwarg root []
              [("x", 1)] [("x", 2)] 0%Z 10%Z [] quiet 1 quiet eq_refl)
    as (c1 & p2 & H1 & H2);
    [left; reflexivity | simpl; unfold capacity; lia | constructor | lia |].
  exists c1, p2. split; [exact H1|]. rewrite (H2 quiet). reflexivity.
Defined.

(** * Further properties of the module *)

(** ** The cache under any clock *)

Section CacheExtras.
Context {V W : Type}.
Implicit Types (c : cache V) (p : proc W) (k : string).
Implicit Types (compute : proc W -> outcome V * proc W).

(** X1.  The cleanup cannot fail.  When lines 58-60 run, the dictionary is
    not empty, so [min] has a result, and that result is a key of the
    dictionary, so [del] finds it; exactly one entry goes. *)
Theorem cleanup_cannot_fail c p :
  capacity < length c ->
  exists k, oldest_key c = Some k /\ k ∈ Dict.keys c /\
    cleanup c p = (Dict.del k c, log (LogInfo "Cache cleanup ejecutado") p) /\
    S (length (Dict.del k c)) = length c.
Proof.
  intros Hlen. destruct (cleanup_over c p Hlen) as (k & Hk & Hin & Hcl).
  exists k. split_and!; [done | done | done | by apply length_del].
Qed.

(** X2.  The wrapper raises nothing of its own.  If a call of the cached
    function raises [e], then the call took the miss path, the wrapped
    function raised that [e], and the cache is untouched. *)
Theorem raises_only_what_the_function_raises k ttl compute now c p e c' p' :
  get_or_compute k ttl compute now c p = (Raised e, (c', p')) ->
  misses k ttl now c /\ compute p = (Raised e, p') /\ c' = c.
Proof.
  intros Hcall.
  destruct (hit_or_miss k ttl now c) as [Hm | (v & t & Hg & Hlt)].
  - split; [done|]. rewrite get_or_compute_miss in Hcall by done.
    unfold compute_and_store in Hcall.
    destruct (compute p) as [[v|e0] p1]; [done|].
    by injection Hcall as -> -> ->.
  - by rewrite (get_or_compute_hit _ _ _ _ _ _ v t) in Hcall.
Qed.

(** X3.  The cache never shrinks.  A call on a cache of at most 50 entries
    leaves at least as many entries as it found, and at most 50: expired
    entries are not swept, and a cache that holds 50 entries holds 50
    entries after every later call. *)
Theorem cache_never_shrinks k ttl compute now c p :
  length c <= capacity ->
  length c <= length (fst (snd (get_or_compute k ttl compute now c p))) /\
  length (fst (snd (get_or_compute k ttl compute now c p))) <= capacity /\
  (length c = capacity ->
   length (fst (snd (get_or_compute k ttl compute now c p))) = capacity).
Proof.
  intros Hlen.
  assert (length c <= length (fst (snd (get_or_compute k ttl compute now c p))))
    as Hge.
  { destruct (get_or_compute_cache k ttl compute now c p)
      as [-> | (v & p1 & _ & _ & ->)]; [done|]. simpl.
    destruct (decide (k ∈ Dict.keys c)) as [Hin|Hn].
    - rewrite cleanup_within by (by rewrite length_set_present).
      simpl. by rewrite length_set_present.
    - pose proof (length_set_absent c k (v, now) Hn) as Hs.
      destruct (decide (length (Dict.set k (v, now) c) <= capacity)).
      + rewrite cleanup_within by done. simpl. lia.
      + destruct (cleanup_over (Dict.set k (v, now) c) p1)
          as (k0 & _ & Hin & ->); [lia|]. simpl.
        apply length_del in Hin. lia. }
  pose proof (get_or_compute_length k ttl compute now c p Hlen).
  split_and!; [done | done | lia].
Qed.
End CacheExtras.

(** ** The cache under a clock that does not go back *)

Section ClockFacts.
Context {V W : Type}.
Implicit Types (c : cache V) (p : proc W) (k : string).
Implicit Types (compute : proc W -> outcome V * proc W).

Lemma not_after_mono t t' c :
  not_after t c -> (t <= t')%Z -> not_after t' c.
Proof.
  unfold not_after. intros H Hle. eapply Forall_impl; [exact H|].
  intros kv Hkv. simpl in *. lia.
Qed.

Lemma not_after_get now c k (v : V) t :
  not_after now c -> Dict.get k c = Some (v, t) -> (t <= now)%Z.
Proof.
  intros Hna Hg%get_Some_elem. unfold not_after in Hna.
  rewrite Forall_forall in Hna. apply (Hna _ Hg).
Qed.

Lemma not_after_set now c k (v : V) :
  not_after now c -> not_after now (Dict.set k (v, now) c).
Proof.
  unfold not_after. induction 1 as [|[k0 e0] c Hk Hc IH]; simpl.
  - apply Forall_cons. split; [simpl; lia | apply Forall_nil_2].
  - case_decide; apply Forall_cons; split; simpl; done.
Qed.

Lemma not_after_del now c k : not_after now c -> not_after now (Dict.del k c).
Proof.
  unfold not_after. induction 1 as [|[k0 e0] c Hk Hc IH]; simpl; [done|].
  case_decide; [done|]. by apply Forall_cons.
Qed.

Lemma not_after_cleanup now c p :
  not_after now c -> not_after now (fst (cleanup c p)).
Proof.
  intros H. unfold cleanup. case_bool_decide; [|done].
  destruct (oldest_key c); simpl; [by apply not_after_del | done].
Qed.

Lemma get_or_compute_not_after k ttl compute now c p :
  not_after now c ->
  not_after now (fst (snd (get_or_compute k ttl compute now c p))).
Proof.
  intros Hna.
  destruct (get_or_compute_cache k ttl compute now c p)
    as [-> | (v & p1 & _ & _ & ->)]; [done|].
  simpl. by apply not_after_cleanup, not_after_set.
Qed.

Lemma reached_inv t c :
  reached (W:=W) t c -> length c <= capacity /\ Dict.wf c /\ not_after t c.
Proof.
  induction 1 as [t|t c i p _ (IHlen & IHwf & IHna) Hle].
  - split_and!; [simpl; unfold capacity; lia | apply NoDup_nil_2
                | apply Forall_nil_2].
  - split_and!.
    + by apply get_or_compute_length.
    + by apply get_or_compute_wf.
    + apply get_or_compute_not_after. by apply not_after_mono with t.
Qed.

(** X4.  What a call returns is what the cache then holds.  With a clock
    that does not go back, after a call that returns [v] the cache holds
    [v] under the key of the call, with a timestamp that is not later than
    the call: the entry just stored is never the one that the cleanup of
    the same call deletes. *)
Theorem returned_value_is_cached t c (i : invocation V W) p v c' p' :
  reached (W:=W) t c -> (t <= inv_time i)%Z ->
  invoke i c p = (Returned v, (c', p')) ->
  exists ts, Dict.get (inv_key i) c' = Some (v, ts) /\ (ts <= inv_time i)%Z.
Proof.
  intros (Hlen & Hwf & Hna)%reached_inv Hle Hcall.
  destruct i as [k ttl compute now]. unfold invoke in Hcall. simpl in *.
  apply not_after_mono with (t' := now) in Hna; [|done].
  destruct (hit_or_miss k ttl now c) as [Hm | (v0 & t0 & Hg & Hlt)].
  - rewrite get_or_compute_miss in Hcall by done.
    unfold compute_and_store in Hcall.
    destruct (compute p) as [[v1|e] p1]; [|done].
    injection Hcall as -> Hcl. exists now. split; [|lia].
    pose proof (stored_entry_kept k v now c p1 Hlen Hna) as Hk.
    by rewrite Hcl in Hk.
  - rewrite (get_or_compute_hit _ _ _ _ _ _ v0 t0) in Hcall by done.
    injection Hcall as -> <- _. exists t0. split; [done|].
    by apply (not_after_get now c k v t0).
Qed.

(** X5.  A call repeated at once is served from the cache.  With a clock
    that does not go back and a positive [ttl], after a call that returned
    [v] a second call under the same key at the same clock reading returns
    [v] whatever its function is, and changes nothing in the cache. *)
Theorem repeated_call_is_a_hit t c (i : invocation V W) p v c' p' :
  reached (W:=W) t c -> (t <= inv_time i)%Z -> (0 < inv_ttl i)%Z ->
  invoke i c p = (Returned v, (c', p')) ->
  forall compute2 p2,
    get_or_compute (inv_key i) (inv_ttl i) compute2 (inv_time i) c' p2 =
    (Returned v,
     (c', log (LogInfo ("Cache hit para " +:+ inv_key i)) p2)).
Proof.
  intros (Hlen & Hwf & Hna)%reached_inv Hle Httl Hcall compute2 p2.
  destruct i as [k ttl compute now]. unfold invoke in Hcall. simpl in *.
  apply not_after_mono with (t' := now) in Hna; [|done].
  destruct (hit_or_miss k ttl now c) as [Hm | (v0 & t0 & Hg & Hlt)].
  - rewrite get_or_compute_miss in Hcall by done.
    unfold compute_and_store in Hcall.
    destruct (compute p) as [[v1|e] p1]; [|done].
    injection Hcall as -> Hcl.
    pose proof (stored_entry_kept k v now c p1 Hlen Hna) as Hk.
    rewrite Hcl in Hk. simpl in Hk.
    apply get_or_compute_hit with (t := now); [done | lia].
  - rewrite (get_or_compute_hit _ _ _ _ _ _ v0 t0) in Hcall by done.
    injection Hcall as -> <- _.
    by apply get_or_compute_hit with (t := t0).
Qed.

(** X6.  A [ttl] of zero or less never gives a hit.  With timestamps that
    are not later than the clock reading, every call under such a [ttl]
    runs the wrapped function, whatever the cache holds, and still stores
    the result. *)
Theorem nonpositive_ttl_never_hits k ttl compute now c p :
  (ttl <= 0)%Z -> not_after now c ->
  misses k ttl now c /\
  get_or_compute k ttl compute now c p =
  compute_and_store k compute now c p.
Proof.
  intros Httl Hna.
  assert (misses k ttl now c) as Hm.
  { destruct (Dict.get k c) as [[v t]|] eqn:Hg; [|by left].
    right. exists v, t. split; [done|].
    pose proof (not_after_get now c k v t Hna Hg). lia. }
  split; [done | by apply get_or_compute_miss].
Qed.
End ClockFacts.

(** ** A long series of new keys *)

Section Window.
Context {V W : Type}.
Implicit Types (calls : list (invocation V W)) (p : proc W).

Lemma elem_of_drop_keys (c : cache V) n k :
  k ∈ Dict.keys (drop n c) -> k ∈ Dict.keys c.
Proof.
  unfold Dict.keys. rewrite <- (take_drop n c) at 2. rewrite map_app.
  intros H. apply elem_of_app. by right.
Qed.

Lemma run_last_fifty calls : forall (vs : list V) p,
  NoDup (map inv_key calls) ->
  StronglySorted Z.le (map inv_time calls) ->
  fst (run calls [] p) = map Returned vs ->
  length vs = length calls /\
  fst (snd (run calls [] p)) =
  drop (length calls - capacity) (entries_of calls vs).
Proof.
  induction calls as [|x calls IH] using rev_ind; intros vs p Hnd Hs Hout.
  { simpl in *. by destruct vs. }
  destruct (run_snoc calls x [] p) as [Ho Hc]. rewrite Ho in Hout.
  destruct vs as [|v vs _] using rev_ind.
  { apply (f_equal length) in Hout. rewrite length_app in Hout.
    simpl in Hout. lia. }
  rewrite map_app in Hout. simpl in Hout.
  apply app_inj_2 in Hout as [Hout1 Hout2]; [|done].
  injection Hout2 as Hx.
  rewrite map_app in Hnd. apply NoDup_app in Hnd as (Hnd1 & Hdisj & _).
  assert (StronglySorted Z.le (map inv_time calls)) as Hs1.
  { rewrite map_app in Hs. by apply StronglySorted_app_1_l in Hs. }
  destruct (IH vs p Hnd1 Hs1 Hout1) as [Hvs Hc1].
  split; [rewrite !length_app; simpl; lia|].
  rewrite Hc, entries_of_snoc by done. rewrite Hc1 in *.
  assert (length (entries_of calls vs) = length calls) as HlenE.
  { unfold entries_of. rewrite length_zip_with. lia. }
  rewrite (invoke_absent x _ _ v); [| |done].
  2:{ intros Hin%elem_of_drop_keys. rewrite keys_entries_of in Hin by done.
      apply (Hdisj _ Hin). simpl. left. }
  rewrite length_app. simpl.
  destruct (decide (length calls < capacity)) as [Hlt|Hge].
  - replace (length calls - capacity) with 0 by lia.
    replace (length calls + 1 - capacity) with 0 by lia.
    rewrite !drop_0.
    rewrite cleanup_within; [done|]. rewrite length_app. simpl.
    unfold capacity in *. lia.
  - assert (length (drop (length calls - capacity) (entries_of calls vs))
            = capacity) as Hlen50.
    { rewrite length_drop. unfold capacity in *. lia. }
    destruct (drop (length calls - capacity) (entries_of calls vs))
      as [|kv rest] eqn:Hd; [simpl in Hlen50; unfold capacity in *; lia|].
    replace (length calls + 1 - capacity)
      with ((length calls - capacity) + 1) by lia.
    rewrite <- drop_drop, drop_app_le by lia. rewrite Hd. simpl.
    rewrite drop_0. apply cleanup_drops_head.
    + simpl in *. rewrite length_app. simpl. unfold capacity in *. lia.
    + rewrite <- (times_entries_of (calls ++ [x]) (vs ++ [v])) in Hs
        by (rewrite !length_app; simpl; lia).
      rewrite entries_of_snoc in Hs by done.
      rewrite <- (take_drop (length calls - capacity) (entries_of calls vs))
        in Hs.
      rewrite Hd, <- app_assoc, map_app in Hs.
      apply StronglySorted_app_1_r in Hs. simpl in Hs.
      apply StronglySorted_inv in Hs as [_ Hall].
      rewrite Forall_map in Hall. exact Hall.
Qed.

(** X7.  The cache is a window on the last 50 new keys.  After any number
    of calls under distinct keys on the empty cache, with a clock that does
    not go back and functions that return, the cache holds the entries of
    the last 50 calls (of all of them when there are fewer), in the order
    of the calls. *)
Theorem cache_is_the_last_fifty calls (vs : list V) p :
  NoDup (map inv_key calls) ->
  Sorted Z.le (map inv_time calls) ->
  fst (run calls [] p) = map Returned vs ->
  fst (snd (run calls [] p)) = drop (length calls - 50) (entries_of calls vs).
Proof.
  intros Hnd Hs Hout.
  apply Sorted_StronglySorted in Hs; [|intros ???; lia].
  by destruct (run_last_fifty calls vs p Hnd Hs Hout) as [_ ?].
Qed.
End Window.

(** ** The error handler and the routes *)

Section RouteExtras.
Context {A W T : Type} (repr : A -> string).

(** X8.  A cached route raises no [Exception].  A call of a route made of
    [@cache_response] above [@handle_errors] raises only what is not an
    [Exception], and only because the view raised it; the cache is then
    untouched.  Every [Exception] of the view has been turned into a
    response. *)
Theorem cached_route_raises_no_exception ttl (f : handler A W T)
    req args kwargs now c p e c' p' :
  cached_route repr ttl f req args kwargs now c p = (Raised e, (c', p')) ->
  (exists msg, e = NonException msg /\
     call f args kwargs p = (Raised (NonException msg), p')) /\
  c' = c.
Proof.
  unfold cached_route, cache_response. intros Hcall.
  destruct (hit_or_miss (cache_key repr (fn_name (handle_errors f)) req args)
              ttl now c) as [Hm | (v & t & Hg & Hlt)].
  - rewrite get_or_compute_miss in Hcall by done.
    unfold compute_and_store in Hcall. simpl in Hcall.
    destruct (call f args kwargs p) as [[v|[m|m|m]] p1]; try done.
    injection Hcall as <- <- <-. split; [by exists m | done].
  - by rewrite (get_or_compute_hit _ _ _ _ _ _ v t) in Hcall.
Qed.

(** X9.  A 404 is cached as well.  When the view raises [NotFound] on a
    miss, the error handler answers with the 404 response and logs
    nothing, and the route returns it after line 54 has stored it under
    the key and the cleanup of lines 57-61 has run.  Whenever the cache
    holds that entry and it is younger than the TTL, a call under the key
    gets the 404 from the cache whatever the view would now do.  The entry
    is in the cache when the first call returns if the cache held at most
    50 entries and no timestamp later than the clock reading. *)
Theorem not_found_response_is_cached ttl (f : handler A W T)
    req args kwargs t0 c p msg p1 :
  call f args kwargs p = (Raised (NotFound msg), p1) ->
  misses (cache_key repr (fn_name f) req args) ttl t0 c ->
  call (handle_errors f) args kwargs p =
    (Returned (JsonStatus not_found_body 404), p1) /\
  cached_route repr ttl f req args kwargs t0 c p =
    (Returned (JsonStatus not_found_body 404),
     cleanup (Dict.set (cache_key repr (fn_name f) req args)
                (JsonStatus not_found_body 404, t0) c) p1) /\
  Dict.get (cache_key repr (fn_name f) req args)
    (Dict.set (cache_key repr (fn_name f) req args)
       (JsonStatus (T:=T) not_found_body 404, t0) c)
    = Some (JsonStatus not_found_body 404, t0) /\
  (forall (g : handler A W T) kwargs' t1 c1 ts p3,
     fn_name g = fn_name f ->
     Dict.get (cache_key repr (fn_name f) req args) c1
       = Some (JsonStatus not_found_body 404, ts) ->
     (t1 - ts < ttl)%Z ->
     cached_route repr ttl g req args kwargs' t1 c1 p3 =
     (Returned (JsonStatus not_found_body 404),
      (c1, log (LogInfo ("Cache hit para "
                         +:+ cache_key repr (fn_name f) req args)) p3))) /\
  (length c <= capacity -> not_after t0 c ->
   Dict.get (cache_key repr (fn_name f) req args)
     (fst (cleanup (Dict.set (cache_key repr (fn_name f) req args)
                      (JsonStatus (T:=T) not_found_body 404, t0) c) p1))
   = Some (JsonStatus not_found_body 404, t0)).
Proof.
  intros Hf Hm.
  assert (call (handle_errors f) args kwargs p =
    (Returned (JsonStatus not_found_body 404), p1)) as Hh.
  { simpl. by rewrite Hf. }
  split_and!.
  - done.
  - unfold cached_route, cache_response.
    change (fn_name (handle_errors f)) with (fn_name f).
    rewrite get_or_compute_miss by done.
    by rewrite (compute_and_store_returned _ _ _ _ _ _ _ Hh).
  - apply get_set_eq.
  - intros g kwargs' t1 c1 ts p3 Hname Hg Hlt.
    unfold cached_route, cache_response.
    change (fn_name (handle_errors g)) with (fn_name g). rewrite Hname.
    by apply get_or_compute_hit with (t := ts).
  - apply stored_entry_kept.
Qed.
End RouteExtras.

(** ** Response headers *)

Section HeaderFacts.
Implicit Types (h : Headers.t) (k v : string).

Lemma same_true k k' :
  Headers.same k k' = true <-> Headers.lower k = Headers.lower k'.
Proof. unfold Headers.same. apply bool_decide_eq_true. Qed.

Lemma same_false k k' :
  Headers.same k k' = false <-> Headers.lower k <> Headers.lower k'.
Proof. unfold Headers.same. apply bool_decide_eq_false. Qed.

Lemma same_refl k : Headers.same k k = true.
Proof. by apply same_true. Qed.

Lemma same_sym k k' : Headers.same k k' = Headers.same k' k.
Proof.
  destruct (Headers.same k' k) eqn:E.
  - apply same_true. by apply same_true in E.
  - apply same_false. apply same_false in E. congruence.
Qed.

Ltac same_solver :=
  repeat match goal with
    | H : Headers.same _ _ = true |- _ => apply same_true in H
    | H : Headers.same _ _ = false |- _ => apply same_false in H
    end;
  try first [apply same_true | apply same_false]; congruence.

Lemma get_remove_other h k k' :
  Headers.same k k' = false ->
  Headers.get k' (Headers.remove k h) = Headers.get k' h.
Proof.
  intros Hne. induction h as [|[k0 v0] h IH]; simpl; [done|].
  destruct (Headers.same k0 k) eqn:E; simpl.
  - assert (Headers.same k0 k' = false) as -> by same_solver. done.
  - by rewrite IH.
Qed.

Lemma get_set_same h k k' v :
  Headers.same k k' = true -> Headers.get k' (Headers.set k v h) = Some v.
Proof.
  intros He. induction h as [|[k0 v0] h IH]; simpl.
  - by rewrite He.
  - destruct (Headers.same k0 k) eqn:E; simpl.
    + by rewrite He.
    + assert (Headers.same k0 k' = false) as -> by same_solver. done.
Qed.

Lemma get_set_other h k k' v :
  Headers.same k k' = false ->
  Headers.get k' (Headers.set k v h) = Headers.get k' h.
Proof.
  intros Hne. induction h as [|[k0 v0] h IH]; simpl.
  - by rewrite Hne.
  - destruct (Headers.same k0 k) eqn:E; simpl.
    + assert (Headers.same k0 k' = false) as -> by same_solver.
      rewrite Hne. by apply get_remove_other.
    + by rewrite IH.
Qed.

Lemma remove_remove h k :
  Headers.remove k (Headers.remove k h) = Headers.remove k h.
Proof.
  induction h as [|[k0 v0] h IH]; simpl; [done|].
  destruct (Headers.same k0 k) eqn:E; simpl; [done|]. by rewrite E, IH.
Qed.

Lemma remove_remove_other h k k' :
  Headers.remove k (Headers.remove k' h) =
  Headers.remove k' (Headers.remove k h).
Proof.
  induction h as [|[k0 v0] h IH]; simpl; [done|].
  destruct (Headers.same k0 k') eqn:E'; destruct (Headers.same k0 k) eqn:E;
    simpl; rewrite ?E, ?E'; by rewrite ?IH.
Qed.

Lemma remove_set_other h k k' v' :
  Headers.same k k' = false ->
  Headers.remove k (Headers.set k' v' h) =
  Headers.set k' v' (Headers.remove k h).
Proof.
  intros Hne. assert (Headers.same k' k = false) as Hne' by same_solver.
  induction h as [|[k0 v0] h IH]; simpl.
  - by rewrite Hne'.
  - destruct (Headers.same k0 k') eqn:E'; destruct (Headers.same k0 k) eqn:E;
      simpl; rewrite ?E, ?E', ?Hne'; simpl.
    + exfalso. clear IH. same_solver.
    + by rewrite remove_remove_other.
    + done.
    + by rewrite IH.
Qed.

(** An assignment made twice is made once. *)
Lemma set_set h k v : Headers.set k v (Headers.set k v h) = Headers.set k v h.
Proof.
  induction h as [|[k0 v0] h IH]; simpl.
  - by rewrite same_refl.
  - destruct (Headers.same k0 k) eqn:E; simpl.
    + by rewrite same_refl, remove_remove.
    + by rewrite E, IH.
Qed.

(** An assignment that changes nothing still changes nothing after an
    assignment to another header. *)
Lemma set_fixed_other h k v k' v' :
  Headers.same k k' = false ->
  Headers.set k v h = h ->
  Headers.set k v (Headers.set k' v' h) = Headers.set k' v' h.
Proof.
  intros Hne. assert (Headers.same k' k = false) as Hne' by same_solver.
  induction h as [|[k0 v0] h IH]; simpl; [done|].
  destruct (Headers.same k0 k) eqn:E; destruct (Headers.same k0 k') eqn:E';
    simpl; rewrite ?E, ?E', ?Hne'; simpl.
  - exfalso. clear IH. same_solver.
  - intros [= -> -> Hrem]. f_equal.
    by rewrite remove_set_other, Hrem.
  - intros [= Hfix]. f_equal. rewrite <- Hfix at 2.
    symmetry. by apply remove_set_other.
  - intros [= Hfix]. f_equal. by apply IH.
Qed.
Lemma count_remove_same h k : Headers.count k (Headers.remove k h) = 0.
Proof.
  induction h as [|[k0 v0] h IH]; simpl; [done|].
  destruct (Headers.same k0 k) eqn:E; simpl; [done|]. by rewrite E.
Qed.

Lemma count_remove_other h k k' :
  Headers.same k k' = false ->
  Headers.count k (Headers.remove k' h) = Headers.count k h.
Proof.
  intros Hne. induction h as [|[k0 v0] h IH]; simpl; [done|].
  destruct (Headers.same k0 k') eqn:E'; destruct (Headers.same k0 k) eqn:E;
    simpl; rewrite ?E; try by rewrite IH.
  exfalso. clear IH. same_solver.
Qed.

Lemma count_set_same h k v : Headers.count k (Headers.set k v h) = 1.
Proof.
  induction h as [|[k0 v0] h IH]; simpl.
  - by rewrite same_refl.
  - destruct (Headers.same k0 k) eqn:E; simpl.
    + by rewrite same_refl, count_remove_same.
    + by rewrite E.
Qed.

Lemma count_set_other h k k' v' :
  Headers.same k k' = false ->
  Headers.count k (Headers.set k' v' h) = Headers.count k h.
Proof.
  intros Hne. assert (Headers.same k' k = false) as Hne' by same_solver.
  induction h as [|[k0 v0] h IH]; simpl.
  - by rewrite Hne'.
  - destruct (Headers.same k0 k') eqn:E'; destruct (Headers.same k0 k) eqn:E;
      simpl; rewrite ?E, ?Hne'; try by rewrite ?IH.
    + exfalso. clear IH. same_solver.
    + by apply count_remove_other.
Qed.

End HeaderFacts.

Section AfterRequest.
Implicit Types (h : Headers.t) (endpoint : option string) (req : request).

Lemma after_request_assignments endpoint req h :
  after_request endpoint req h = assign_all (assignments endpoint req) h.
Proof.
  unfold after_request, assignments.
  destruct (match endpoint with
            | Some e => bool_decide (e ∈ ["home"; "health_check"])
            | None => false
            end); destruct (String.prefix "/api/" (path req)); reflexivity.
Qed.

Lemma assignments_distinct endpoint req :
  distinct_names (assignments endpoint req) = true.
Proof.
  unfold assignments.
  destruct (match endpoint with
            | Some e => bool_decide (e ∈ ["home"; "health_check"])
            | None => false
            end); destruct (String.prefix "/api/" (path req));
    by vm_compute.
Qed.

Lemma assign_all_fixed kvs h :
  (forall k v, (k, v) ∈ kvs -> Headers.set k v h = h) ->
  assign_all kvs h = h.
Proof.
  induction kvs as [|[k v] kvs IH]; simpl; [done|]. intros Hfix.
  rewrite (Hfix k v) by left. apply IH. intros k' v' Hin.
  apply Hfix. by right.
Qed.

Lemma assign_all_keeps_fixed kvs : forall h k v,
  Headers.set k v h = h ->
  forallb (fun kv => negb (Headers.same k (fst kv))) kvs = true ->
  Headers.set k v (assign_all kvs h) = assign_all kvs h.
Proof.
  induction kvs as [|[k' v'] kvs IH]; intros h k v Hfix Hall; simpl; [done|].
  simpl in Hall. apply andb_true_iff in Hall as [Hne Hall].
  apply negb_true_iff in Hne.
  apply IH; [|done]. by apply set_fixed_other.
Qed.

Lemma assign_all_settles kvs : forall h k v,
  distinct_names kvs = true -> (k, v) ∈ kvs ->
  Headers.set k v (assign_all kvs h) = assign_all kvs h.
Proof.
  induction kvs as [|[k' v'] kvs IH]; intros h k v Hd Hin; simpl.
  - by apply elem_of_nil in Hin.
  - simpl in Hd. apply andb_true_iff in Hd as [Hall Hd].
    apply elem_of_cons in Hin as [[= -> ->]|Hin].
    + apply assign_all_keeps_fixed; [apply set_set | done].
    + by apply IH.
Qed.

(** X10.  The security headers are on every response.  Whatever the
    endpoint, the path and the headers that the view had put on the
    response, after [after_request] the four security headers and
    [X-Powered-By] have the values of lines 435-438 and 453. *)
Theorem security_headers_always_set endpoint req h :
  Headers.get "X-Content-Type-Options" (after_request endpoint req h)
    = Some "nosniff" /\
  Headers.get "X-Frame-Options" (after_request endpoint req h)
    = Some "DENY" /\
  Headers.get "X-XSS-Protection" (after_request endpoint req h)
    = Some "1; mode=block" /\
  Headers.get "Referrer-Policy" (after_request endpoint req h)
    = Some "strict-origin-when-cross-origin" /\
  Headers.get "X-Powered-By" (after_request endpoint req h)
    = Some "Flask-Vercel-Optimized".
Proof.
  unfold after_request.
  destruct (match endpoint with
            | Some e => bool_decide (e ∈ ["home"; "health_check"])
            | None => false
            end); destruct (String.prefix "/api/" (path req));
    split_and!;
    repeat first
      [ rewrite get_set_same by (by vm_compute)
      | rewrite get_set_other by (by vm_compute) ];
    reflexivity.
Qed.

(** X11.  [Cache-Control] is decided by the endpoint alone.  The response
    leaves with [public, max-age=300] when the endpoint is [home] or
    [health_check], and with [no-cache, no-store, must-revalidate] for
    every other endpoint and when no route matched; what the view had put
    in that header is overwritten. *)
Theorem cache_control_by_endpoint endpoint req h :
  (endpoint = Some "home" \/ endpoint = Some "health_check" ->
   Headers.get "Cache-Control" (after_request endpoint req h)
     = Some "public, max-age=300") /\
  (endpoint <> Some "home" -> endpoint <> Some "health_check" ->
   Headers.get "Cache-Control" (after_request endpoint req h)
     = Some "no-cache, no-store, must-revalidate").
Proof.
  split.
  - intros [-> | ->]; unfold after_request; simpl;
      destruct (String.prefix "/api/" (path req));
      repeat first
        [ rewrite get_set_same by (by vm_compute)
        | rewrite get_set_other by (by vm_compute) ];
      reflexivity.
  - intros H1 H2. unfold after_request.
    assert (match endpoint with
            | Some e => bool_decide (e ∈ ["home"; "health_check"])
            | None => false
            end = false) as ->.
    { destruct endpoint as [e|]; [|done]. apply bool_decide_eq_false.
      rewrite !elem_of_cons, elem_of_nil. intros [-> | [-> | []]]; done. }
    destruct (String.prefix "/api/" (path req));
      repeat first
        [ rewrite get_set_same by (by vm_compute)
        | rewrite get_set_other by (by vm_compute) ];
      reflexivity.
Qed.

(** X12.  The CORS headers go on the API paths only.  When the path starts
    with [/api/] the three [Access-Control-Allow-*] headers get the values
    of lines 448-450; on any other path they are left as the view set
    them. *)
Theorem cors_headers_on_api_paths_only endpoint req h :
  (String.prefix "/api/" (path req) = true ->
   Headers.get "Access-Control-Allow-Origin" (after_request endpoint req h)
     = Some "*" /\
   Headers.get "Access-Control-Allow-Methods" (after_request endpoint req h)
     = Some "GET, POST, OPTIONS" /\
   Headers.get "Access-Control-Allow-Headers" (after_request endpoint req h)
     = Some "Content-Type, Authorization") /\
  (String.prefix "/api/" (path req) = false ->
   Headers.get "Access-Control-Allow-Origin" (after_request endpoint req h)
     = Headers.get "Access-Control-Allow-Origin" h /\
   Headers.get "Access-Control-Allow-Methods" (after_request endpoint req h)
     = Headers.get "Access-Control-Allow-Methods" h /\
   Headers.get "Access-Control-Allow-Headers" (after_request endpoint req h)
     = Headers.get "Access-Control-Allow-Headers" h).
Proof.
  split; intros Hp; unfold after_request; rewrite Hp;
    destruct (match endpoint with
              | Some e => bool_decide (e ∈ ["home"; "health_check"])
              | None => false
              end);
    split_and!;
    repeat first
      [ rewrite get_set_same by (by vm_compute)
      | rewrite get_set_other by (by vm_compute) ];
    reflexivity.
Qed.

(** X13.  Other headers pass through.  A header whose name is none of the
    nine that [after_request] writes, compared without case, has after
    [after_request] the value it had before. *)
Theorem other_headers_untouched endpoint req h k :
  (forall name, name ∈ written_headers -> Headers.same name k = false) ->
  Headers.get k (after_request endpoint req h) = Headers.get k h.
Proof.
  intros Hk. unfold after_request.
  destruct (match endpoint with
            | Some e => bool_decide (e ∈ ["home"; "health_check"])
            | None => false
            end); destruct (String.prefix "/api/" (path req));
    repeat (rewrite get_set_other by (apply Hk; compute_done));
    reflexivity.
Qed.

Lemma assign_all_count kvs : forall h k v,
  distinct_names kvs = true -> (k, v) ∈ kvs ->
  Headers.count k (assign_all kvs h) = 1.
Proof.
  induction kvs as [|[k' v'] kvs IH]; intros h k v Hd Hin; simpl.
  - by apply elem_of_nil in Hin.
  - simpl in Hd. apply andb_true_iff in Hd as [Hall Hd].
    apply elem_of_cons in Hin as [[= -> ->]|Hin]; [|by apply (IH _ k v)].
    clear IH Hd. revert h.
    induction kvs as [|[k2 v2] kvs IH2]; intros h; simpl.
    + apply count_set_same.
    + simpl in Hall. apply andb_true_iff in Hall as [Hne Hall].
      apply negb_true_iff in Hne. specialize (IH2 Hall).
      assert (forall h0, Headers.count k' h0 = 1 ->
                Headers.count k' (assign_all kvs h0) = 1) as Hkeep.
      { clear IH2 Hne. revert Hall. clear.
        induction kvs as [|[k3 v3] kvs IH3]; intros Hall h0 H1; simpl; [done|].
        simpl in Hall. apply andb_true_iff in Hall as [Hne Hall].
        apply negb_true_iff in Hne. apply IH3; [done|].
        by rewrite count_set_other. }
      apply Hkeep. rewrite count_set_other by done. apply count_set_same.
Qed.

(** X15.  No header is written twice.  Each header that [after_request]
    assigns is, after it, on the response exactly once, compared without
    case: a header of that name put by the view in another spelling, or
    several times, has been replaced. *)
Theorem written_headers_are_unique endpoint req h k v :
  (k, v) ∈ assignments endpoint req ->
  Headers.count k (after_request endpoint req h) = 1 /\
  Headers.get k (after_request endpoint req h) = Some v.
Proof.
  intros Hin. rewrite after_request_assignments. split.
  - apply assign_all_count with v; [apply assignments_distinct | done].
  - pose proof (assign_all_settles (assignments endpoint req) h k v
      (assignments_distinct endpoint req) Hin) as Hfix.
    rewrite <- Hfix. apply get_set_same, same_refl.
Qed.

(** X14.  [after_request] can be applied again.  Applied to headers that
    it has already treated, for the same endpoint and path, it changes
    nothing: a response object that is served again from the cache and
    goes through [after_request] once more keeps the same headers. *)
Theorem after_request_idempotent endpoint req h :
  after_request endpoint req (after_request endpoint req h)
  = after_request endpoint req h.
Proof.
  rewrite !after_request_assignments. apply assign_all_fixed.
  intros k v Hin. apply assign_all_settles; [|done].
  apply assignments_distinct.
Qed.
End AfterRequest.

(** ** The view [process_data] *)

Section ProcessDataFacts.
Context {A W F : Type} (float_is_zero : F -> bool).
Implicit Types (data : json F) (get_json : get_json_result F) (p : proc W).

Lemma py_len_truthy data n :
  truthy float_is_zero data = true -> py_len data = Some n -> 1 <= n.
Proof.
  destruct data as [|b|z|x|chars|items|members]; simpl; try done.
  - destruct chars; [done|]. intros _ [= <-]. simpl. lia.
  - destruct items; [done|]. intros _ [= <-]. simpl. lia.
  - destruct members; [done|]. intros _ [= <-]. simpl. lia.
Qed.

(** X16.  [process_data] always answers, with 200, 400 or 500.  Unless
    [get_json] ends with something that is not an [Exception], the view
    returns a response and leaves the world as it was.  The status is 200
    exactly when the request is JSON, the body parses and the parsed value
    is truthy; it is 500 exactly when the request is JSON and [get_json]
    raises an [Exception] other than [JSONDecodeError]; it is 400 in every
    other case. *)
Theorem process_data_status is_json get_json args kwargs p :
  (is_json = true -> forall m, get_json <> Exited m) ->
  exists r p',
    call (process_data (A:=A) float_is_zero is_json get_json) args kwargs p
      = (Returned r, p') /\
    world p' = world p /\
    (status_of r = 200 \/ status_of r = 400 \/ status_of r = 500)%Z /\
    (status_of r = 200%Z <->
       is_json = true /\
       exists data, get_json = Parsed data /\
                    truthy float_is_zero data = true) /\
    (status_of r = 500%Z <->
       is_json = true /\ exists m, get_json = Failed m).
Proof.
  intros Hexit. simpl. destruct is_json; simpl.
  2:{ eexists _, _. split_and!; [done | done | by right; left | |];
        split; try done; by intros []. }
  destruct get_json as [data|d|m|m].
  - destruct (truthy float_is_zero data) eqn:Ht; simpl;
      eexists _, _; (split_and!; [done | done | | |]); simpl.
    + by left.
    + split; [intros _; split; [done|by exists data] | done].
    + split; [done | by intros [_ [m [=]]]].
    + by right; left.
    + split; [done | intros [_ (d' & [= <-] & Ht')]; congruence].
    + split; [done | by intros [_ [m [=]]]].
  - eexists _, _. split_and!; [done | done | by right; left | |]; simpl;
      (split; [done|]).
    + by intros [_ (d' & [=] & _)].
    + by intros [_ [m [=]]].
  - eexists _, _. split_and!; [done | done | by right; right | |]; simpl.
    + split; [done | by intros [_ (d' & [=] & _)]].
    + split; [intros _; split; [done | by exists m] | done].
  - by destruct (Hexit eq_refl m).
Qed.

(** X17.  A success counts at least one item.  When the view answers 200,
    the result echoes the parsed body, which is truthy; its
    [items_processed] is at least 1; and [keys_count], when it is not
    [None], belongs to an object and is equal to [items_processed]. *)
Theorem success_counts_at_least_one_item is_json get_json args kwargs p r p' :
  call (process_data (A:=A) float_is_zero is_json get_json) args kwargs p
    = (Returned (Plain r), p') ->
  get_json = Parsed (input_data r) /\
  truthy float_is_zero (input_data r) = true /\
  1 <= items_processed r /\
  data_type r = type_name (input_data r) /\
  forall n, keys_count r = Some n ->
    n = items_processed r /\
    exists members, input_data r = JDict members /\ n = length members.
Proof.
  simpl. destruct is_json; simpl; [|done].
  destruct get_json as [data|d|m|m]; try done.
  destruct (truthy float_is_zero data) eqn:Ht; simpl; [|done].
  intros [= <- <-]. simpl. split_and!; [done | done | | done |].
  - destruct (py_len data) as [n|] eqn:Hl; [|lia].
    by apply (py_len_truthy data n).
  - intros n Hn. destruct data; simpl in *; try done.
    injection Hn as <-. split; [done | by eexists].
Qed.

(** X18.  The outer error handler has nothing to catch.  The view catches
    every [Exception] itself, so under [@handle_errors] each response of
    the route is a response of the view: the wrapper never answers with
    its own 404 or 500, and logs nothing of its own. *)
Theorem process_data_handles_its_own_errors is_json get_json args kwargs p :
  (forall body status,
     fst (call (handle_errors
                  (process_data (A:=A) float_is_zero is_json get_json))
            args kwargs p) <> Returned (JsonStatus body status)) /\
  (forall r p',
     call (process_data (A:=A) float_is_zero is_json get_json) args kwargs p
       = (Returned r, p') ->
     call (handle_errors (process_data (A:=A) float_is_zero is_json get_json))
       args kwargs p = (Returned (Plain r), p')).
Proof.
  split.
  - intros body status. simpl. destruct is_json; simpl; [|done].
    destruct get_json as [data|d|m|m]; try done.
    by destruct (truthy float_is_zero data).
  - intros r p'. simpl. destruct is_json; simpl; [|by intros [= <- <-]].
    destruct get_json as [data|d|m|m]; try done;
      try by intros [= <- <-].
    destruct (truthy float_is_zero data); by intros [= <- <-].
Qed.
End ProcessDataFacts.

(** ** Keys and views *)

Section KeyFacts.
Implicit Types (s t : string) (a : Ascii.ascii).

Lemma str_app_nil s : "" +:+ s = s.
Proof. reflexivity. Qed.

Lemma str_app_cons a s t : String a s +:+ t = String a (s +:+ t).
Proof. reflexivity. Qed.

Lemma str_app_assoc s1 s2 s3 : (s1 +:+ s2) +:+ s3 = s1 +:+ (s2 +:+ s3).
Proof.
  induction s1 as [|b s1 IH]; rewrite ?str_app_nil, ?str_app_cons;
    [done | by rewrite IH].
Qed.

Lemma str_length_app s1 s2 :
  String.length (s1 +:+ s2) = String.length s1 + String.length s2.
Proof.
  induction s1 as [|b s1 IH]; rewrite ?str_app_nil, ?str_app_cons; simpl;
    [done | by rewrite IH].
Qed.

Lemma str_app_cancel_r s1 : forall s2 t, s1 +:+ t = s2 +:+ t -> s1 = s2.
Proof.
  induction s1 as [|b s1 IH]; intros [|b2 s2] t H;
    rewrite ?str_app_nil, ?str_app_cons in H.
  - done.
  - apply (f_equal String.length) in H. simpl in H.
    rewrite str_length_app in H. lia.
  - apply (f_equal String.length) in H. simpl in H.
    rewrite str_length_app in H. lia.
  - injection H as -> H. f_equal. by apply (IH s2 t).
Qed.

Lemma occurs_app a s1 s2 :
  occurs a (s1 +:+ s2) = occurs a s1 || occurs a s2.
Proof.
  induction s1 as [|b s1 IH]; rewrite ?str_app_nil, ?str_app_cons; simpl;
    [done|].
  by rewrite IH, orb_assoc.
Qed.

(** Two strings cut at the first [a] of each. *)
Lemma split_at_first a s1 : forall s2 r1 r2,
  occurs a s1 = false -> occurs a s2 = false ->
  s1 +:+ String a r1 = s2 +:+ String a r2 -> s1 = s2 /\ r1 = r2.
Proof.
  induction s1 as [|b s1 IH]; intros [|b2 s2] r1 r2 H1 H2 H;
    rewrite ?str_app_nil, ?str_app_cons in H; simpl in H1, H2.
  - by injection H as ->.
  - injection H as -> _. by rewrite bool_decide_eq_true_2 in H2.
  - injection H as <- _. by rewrite bool_decide_eq_true_2 in H1.
  - injection H as -> H.
    apply orb_false_iff in H1 as [_ H1]. apply orb_false_iff in H2 as [_ H2].
    destruct (IH s2 r1 r2 H1 H2 H) as [-> ->]. done.
Qed.

(** Two strings cut at the last [a] of each. *)
Lemma split_at_last a s1 : forall s2 r1 r2,
  occurs a r1 = false -> occurs a r2 = false ->
  s1 +:+ String a r1 = s2 +:+ String a r2 -> s1 = s2 /\ r1 = r2.
Proof.
  induction s1 as [|b s1 IH]; intros [|b2 s2] r1 r2 H1 H2 H;
    rewrite ?str_app_nil, ?str_app_cons in H.
  - by injection H as ->.
  - injection H as _ ->. rewrite occurs_app in H1. simpl in H1.
    rewrite bool_decide_eq_true_2 in H1 by done.
    by rewrite orb_true_r in H1.
  - injection H as _ <-. rewrite occurs_app in H2. simpl in H2.
    rewrite bool_decide_eq_true_2 in H2 by done.
    by rewrite orb_true_r in H2.
  - injection H as -> H. destruct (IH s2 r1 r2 H1 H2 H) as [-> ->]. done.
Qed.

Lemma prefix_slash s :
  String.prefix "/" s = true -> exists rest, s = String "/"%char rest.
Proof.
  destruct s as [|b s]; [done|]. intros H.
  change (String.prefix "/" (String b s))
    with (if Ascii.ascii_dec "/"%char b then String.prefix "" s else false)
    in H.
  destruct (Ascii.ascii_dec "/"%char b) as [<-|]; [by eexists | done].
Qed.
End KeyFacts.

Section KeyInjective.
Context {A : Type} (repr : A -> string).

(** X19.  Different routes have different keys.  For function names
    without [/], methods without [_] or [/] and paths that start with [/],
    as flask provides them, two calls with the same positional arguments
    derive the same key only if the name, the method and the path are the
    same. *)
Theorem cache_key_injective name1 name2 (req1 req2 : request)
    (args : list A) :
  occurs "/"%char name1 = false -> occurs "/"%char name2 = false ->
  occurs "_"%char (method req1) = false -> occurs "/"%char (method req1) = false ->
  occurs "_"%char (method req2) = false -> occurs "/"%char (method req2) = false ->
  String.prefix "/" (path req1) = true ->
  String.prefix "/" (path req2) = true ->
  cache_key repr name1 req1 args = cache_key repr name2 req2 args ->
  name1 = name2 /\ method req1 = method req2 /\ path req1 = path req2.
Proof.
  intros Hn1 Hn2 Hm1 Hs1 Hm2 Hs2 (p1 & Hp1)%prefix_slash
    (p2 & Hp2)%prefix_slash Hkey.
  unfold cache_key in Hkey. rewrite Hp1, Hp2 in *.
  change (?x +:+ "_" +:+ ?m +:+ "_" +:+ String "/"%char ?p +:+ "_" +:+ ?a)
    with (x +:+ String "_"%char (m +:+ String "_" (String "/"%char (p +:+ "_" +:+ a))))
    in Hkey.
  assert (forall x m rest,
    x +:+ String "_"%char (m +:+ String "_" (String "/"%char rest)) =
    (x +:+ String "_"%char (m +:+ String "_"%char "")) +:+ String "/"%char rest) as Hre.
  { intros x m rest.
    by rewrite str_app_assoc, str_app_cons, str_app_assoc, str_app_cons,
      str_app_nil. }
  rewrite !Hre in Hkey.
  apply split_at_first in Hkey as [Hpre Hrest].
  2,3: rewrite occurs_app; simpl; rewrite occurs_app; simpl;
       by rewrite ?Hn1, ?Hn2, ?Hs1, ?Hs2.
  apply str_app_cancel_r in Hrest as ->.
  assert (forall x m,
    x +:+ String "_"%char (m +:+ String "_"%char "") =
    (x +:+ String "_"%char m) +:+ "_") as Hre2.
  { intros x m. by rewrite str_app_assoc, str_app_cons. }
  rewrite !Hre2 in Hpre. apply str_app_cancel_r in Hpre.
  apply split_at_last in Hpre as [-> ->]; done.
Qed.
End KeyInjective.

Section HealthFacts.
Context {A W : Type} (repr : A -> string).

(** X20.  The health response does not count its own entry.  A call of
    [/api/health] that misses runs the view on the cache it found: the
    response reports the number of entries before its own is stored, at
    most 50, and when the key is new and the cache has room the cache then
    holds one entry more than reported.  A later call that finds the entry
    within 60 seconds returns that same body, whatever the cache holds by
    then. *)
Theorem health_count_excludes_own_entry t vercel_env python_version req
    now c (p : proc W) :
  misses (cache_key repr "health_check" req []) 60 now c ->
  length c <= capacity ->
  exists b c' p',
    health_route (A:=A) repr t vercel_env python_version req now c p =
      (Returned (Plain (Health b)), (c', p')) /\
    h_cache_entries b = length c /\ h_cache_entries b <= 50 /\
    (cache_key repr "health_check" req [] ∉ Dict.keys c ->
     length c < capacity -> length c' = S (h_cache_entries b)) /\
    forall t2 env2 version2 later c2 (p2 : proc W) ts,
      Dict.get (cache_key repr "health_check" req []) c2
        = Some (Plain (Health b), ts) ->
      (later - ts < 60)%Z ->
      fst (health_route (A:=A) repr t2 env2 version2 req later c2 p2) =
      Returned (Plain (Health b)).
Proof.
  intros Hm Hlen. unfold health_route, cached_route, cache_response.
  change (fn_name (handle_errors (health_check t vercel_env python_version c)))
    with "health_check".
  rewrite get_or_compute_miss by done.
  unfold compute_and_store. simpl.
  destruct (cleanup _ _) as [c' p'] eqn:Hcl.
  eexists _, c', p'. split_and!; [done | done | done | |].
  - intros Hn Hroom. simpl.
    rewrite cleanup_within in Hcl.
    + injection Hcl as <- _. by apply length_set_absent.
    + rewrite length_set_absent by done. lia.
  - intros t2 env2 version2 later c2 p2 ts Hg Hlt.
    change (fn_name (handle_errors (health_check t2 env2 version2 c2)))
      with "health_check".
    by rewrite (get_or_compute_hit _ _ _ _ _ _ _ ts Hg Hlt).
Qed.
End HealthFacts.

(** ** The further properties on concrete inputs *)

Import Samples.

Lemma cleanup_cannot_fail_witness :
  capacity < length (Dict.set (key_of 50) (50, 50%Z) full_cache) /\
  exists k,
    oldest_key (Dict.set (key_of 50) (50, 50%Z) full_cache) = Some k /\
    k ∈ Dict.keys (Dict.set (key_of 50) (50, 50%Z) full_cache).
Proof.
  assert (capacity < length (Dict.set (key_of 50) (50, 50%Z) full_cache))
    as Hlen by compute_done.
  split; [exact Hlen|].
  destruct (cleanup_cannot_fail (W:=unit) _ quiet Hlen) as (k & H1 & H2 & _).
  exists k. split; [exact H1 | exact H2].
Defined.

Lemma raises_only_what_the_function_raises_witness :
  get_or_compute "k" 10 raising 20 small_cache quiet
    = (Raised (OtherException "boom"), (small_cache, quiet)) /\
  misses "k" 10 20 small_cache /\
  raising quiet = (Raised (OtherException "boom"), quiet).
Proof.
  assert (get_or_compute "k" 10 raising 20 small_cache quiet
    = (Raised (OtherException "boom"), (small_cache, quiet))) as H
    by reflexivity.
  split; [exact H|].
  destruct (raises_only_what_the_function_raises _ _ _ _ _ _ _ _ _ H)
    as (H1 & H2 & _).
  split; [exact H1 | exact H2].
Defined.

Lemma cache_never_shrinks_witness :
  length full_cache <= capacity /\
  length (fst (snd (get_or_compute (key_of 50) 600 (const 50) 50
                      full_cache quiet))) = capacity.
Proof.
  assert (length full_cache <= capacity) as Hlen by compute_done.
  split; [exact Hlen|].
  apply (cache_never_shrinks (key_of 50) 600%Z (const 50) 50%Z full_cache
           quiet Hlen). reflexivity.
Defined.

Lemma full_cache_reached : reached (W:=unit) 49 full_cache.
Proof.
  assert (forall n, n < 50 ->
    reached (W:=unit) (Z.of_nat n)
      (map (fun n => (key_of n, (n, Z.of_nat n))) (seq 0 (S n)))) as H.
  { induction n as [|n IH]; intros Hn.
    - apply (reached_call 0%Z []
        {| inv_key := key_of 0; inv_ttl := 600; inv_compute := const 0;
           inv_time := 0 |} quiet (reached_empty 0%Z)). simpl. lia.
    - specialize (IH ltac:(lia)).
      pose proof (reached_call _ _
        {| inv_key := key_of (S n); inv_ttl := 600;
           inv_compute := const (S n); inv_time := Z.of_nat (S n) |}
        quiet IH ltac:(simpl; lia)) as H.
      replace (map (fun n => (key_of n, (n, Z.of_nat n))) (seq 0 (S (S n))))
        with (fst (snd (invoke
          {| inv_key := key_of (S n); inv_ttl := 600;
             inv_compute := const (S n); inv_time := Z.of_nat (S n) |}
          (map (fun n => (key_of n, (n, Z.of_nat n))) (seq 0 (S n))) quiet)));
        [exact H|].
      clear IH H. do 49 (destruct n as [|n]; [by vm_compute|]). lia. }
  apply (H 49). lia.
Qed.

(** The cache is full: the call stores its entry, the cleanup runs and
    deletes key ["0"], and the entry of the call is still there. *)
Lemma returned_value_is_cached_witness :
  reached (W:=unit) 49 full_cache /\ (49 <= inv_time fresh_call)%Z /\
  invoke fresh_call full_cache quiet =
    (Returned 50,
     (tail full_cache ++ [(key_of 50, (50, 50%Z))],
      log (LogInfo "Cache cleanup ejecutado") quiet)) /\
  Dict.get (key_of 0) (tail full_cache ++ [(key_of 50, (50, 50%Z))]) = None /\
  exists ts,
    Dict.get (key_of 50) (tail full_cache ++ [(key_of 50, (50, 50%Z))])
      = Some (50, ts) /\
    (ts <= inv_time fresh_call)%Z.
Proof.
  assert (invoke fresh_call full_cache quiet =
    (Returned 50,
     (tail full_cache ++ [(key_of 50, (50, 50%Z))],
      log (LogInfo "Cache cleanup ejecutado") quiet))) as Hcall
    by (by vm_compute).
  assert (49 <= inv_time fresh_call)%Z as Hle by (simpl; lia).
  split_and!; [apply full_cache_reached | exact Hle | exact Hcall
              | by vm_compute |].
  apply (returned_value_is_cached 49%Z full_cache fresh_call quiet 50 _ _
           full_cache_reached Hle Hcall).
Defined.

Lemma repeated_call_is_a_hit_witness :
  reached (V:=nat) (W:=unit) 0 [] /\ (0 < inv_ttl (nth_call 3))%Z /\
  get_or_compute (key_of 3) 600 raising 1 [(key_of 3, (3, 1%Z))] quiet =
  (Returned 3,
   ([(key_of 3, (3, 1%Z))],
    log (LogInfo ("Cache hit para " +:+ key_of 3)) quiet)).
Proof.
  split; [apply reached_empty|]. split; [by vm_compute|].
  apply (repeated_call_is_a_hit 0%Z [] (nth_call 3) quiet 3
           [(key_of 3, (3, 1%Z))] quiet (reached_empty 0%Z));
    [by vm_compute | by vm_compute | reflexivity].
Defined.

Lemma nonpositive_ttl_never_hits_witness :
  (0 <= 0)%Z /\ not_after 20 small_cache /\
  get_or_compute "k" 0 (const 8) 20 small_cache quiet =
  compute_and_store "k" (const 8) 20 small_cache quiet.
Proof.
  assert (not_after 20 small_cache) as Hna.
  { repeat constructor; simpl; lia. }
  split; [lia|]. split; [exact Hna|].
  apply (nonpositive_ttl_never_hits "k" 0%Z (const 8) 20%Z small_cache quiet);
    [lia | exact Hna].
Defined.

Lemma cache_is_the_last_fifty_witness :
  NoDup (map inv_key long_series) /\
  Sorted Z.le (map inv_time long_series) /\
  fst (run long_series [] quiet) = map Returned (seq 0 60) /\
  fst (snd (run long_series [] quiet)) =
  drop 10 (entries_of long_series (seq 0 60)).
Proof.
  assert (NoDup (map inv_key long_series)) as Hnd by compute_done.
  assert (Sorted Z.le (map inv_time long_series)) as Hs by compute_done.
  assert (fst (run long_series [] quiet) = map Returned (seq 0 60)) as Hout
    by (by vm_compute).
  split_and!; [exact Hnd | exact Hs | exact Hout |].
  apply (cache_is_the_last_fifty long_series (seq 0 60) quiet Hnd Hs Hout).
Defined.

Lemma cached_route_raises_no_exception_witness :
  cached_route key_of 600 exiting root [] [] 0 [] quiet
    = (Raised (NonException "exit"), ([], quiet)) /\
  exists msg, NonException "exit" = NonException msg /\
    call exiting [] [] quiet = (Raised (NonException msg), quiet).
Proof.
  assert (cached_route key_of 600 exiting root [] [] 0 [] quiet
    = (Raised (NonException "exit"), ([], quiet))) as H by reflexivity.
  split; [exact H|].
  apply (cached_route_raises_no_exception key_of _ _ _ _ _ _ _ _ _ _ _ H).
Defined.

(** The cache is full: the 404 is stored, the cleanup runs and deletes key
    ["0"], the 404 is still there, and the call at 70 is served from the
    cache although its view would return. *)
Lemma not_found_response_is_cached_witness :
  call missing [] [] quiet = (Raised (NotFound "gone"), quiet) /\
  misses (cache_key key_of "view" root []) 600 60 full_responses /\
  length full_responses <= capacity /\ not_after 60 full_responses /\
  Dict.get (key_of 0)
    (fst (snd (cached_route key_of 600 missing root [] [] 60
                 full_responses quiet))) = None /\
  Dict.get (cache_key key_of "view" root [])
    (fst (snd (cached_route key_of 600 missing root [] [] 60
                 full_responses quiet)))
    = Some (JsonStatus not_found_body 404, 60%Z) /\
  fst (cached_route key_of 600 first_kwarg root [] [] 70
         (fst (snd (cached_route key_of 600 missing root [] [] 60
                      full_responses quiet))) quiet)
    = Returned (JsonStatus not_found_body 404).
Proof.
  assert (misses (cache_key key_of "view" root []) 600 60 full_responses)
    as Hm by (left; by vm_compute).
  assert (length full_responses <= capacity) as Hlen by compute_done.
  assert (not_after 60 full_responses) as Hna.
  { unfold not_after. apply Forall_forall. intros kv Hin.
    unfold full_responses in Hin. apply list_elem_of_fmap in Hin as (n & -> & Hn).
    apply elem_of_seq in Hn. simpl. lia. }
  destruct (not_found_response_is_cached key_of 600%Z missing root [] []
              60%Z full_responses quiet "gone" quiet eq_refl Hm)
    as (_ & H2 & _ & H4 & H5).
  specialize (H5 Hlen Hna).
  split_and!; [reflexivity | exact Hm | exact Hlen | exact Hna | | |].
  - by vm_compute.
  - rewrite H2. exact H5.
  - rewrite H2. cbn [fst snd].
    rewrite (H4 first_kwarg [] 70%Z _ 60%Z quiet eq_refl H5 ltac:(lia)).
    reflexivity.
Defined.

Lemma cache_control_by_endpoint_witness :
  Headers.get "Cache-Control"
    (after_request (Some "home") root view_headers)
    = Some "public, max-age=300" /\
  Headers.get "Cache-Control"
    (after_request None root view_headers)
    = Some "no-cache, no-store, must-revalidate".
Proof.
  split.
  - apply (proj1 (cache_control_by_endpoint (Some "home") root view_headers)).
    left. reflexivity.
  - apply (proj2 (cache_control_by_endpoint None root view_headers));
      discriminate.
Defined.

Lemma cors_headers_on_api_paths_only_witness :
  String.prefix "/api/" (path health_request) = true /\
  String.prefix "/api/" (path root) = false /\
  Headers.get "Access-Control-Allow-Origin"
    (after_request (Some "health_check") health_request view_headers)
    = Some "*" /\
  Headers.get "Access-Control-Allow-Origin"
    (after_request (Some "home") root view_headers) = None.
Proof.
  split; [reflexivity|]. split; [reflexivity|]. split.
  - apply (proj1 (cors_headers_on_api_paths_only (Some "health_check")
                    health_request view_headers) eq_refl).
  - rewrite (proj1 (proj2 (cors_headers_on_api_paths_only (Some "home")
                              root view_headers) eq_refl)).
    reflexivity.
Defined.

Lemma other_headers_untouched_witness :
  (forall name, name ∈ written_headers ->
     Headers.same name "content-type" = false) /\
  Headers.get "content-type"
    (after_request (Some "home") root view_headers) = Some "text/html".
Proof.
  assert (forall name, name ∈ written_headers ->
            Headers.same name "content-type" = false) as Hk.
  { intros name Hin. unfold written_headers in Hin.
    repeat (apply elem_of_cons in Hin as [-> | Hin]; [by vm_compute|]).
    by apply elem_of_nil in Hin. }
  split; [exact Hk|].
  rewrite (other_headers_untouched (Some "home") root view_headers
             "content-type" Hk).
  reflexivity.
Defined.

Lemma written_headers_are_unique_witness :
  ("Cache-Control", "public, max-age=300")
    ∈ assignments (Some "home") root /\
  Headers.count "Cache-Control" view_headers = 2 /\
  Headers.count "Cache-Control"
    (after_request (Some "home") root view_headers) = 1.
Proof.
  assert (("Cache-Control", "public, max-age=300")
            ∈ assignments (Some "home") root) as Hin by compute_done.
  split; [exact Hin|]. split; [reflexivity|].
  apply (written_headers_are_unique (Some "home") root view_headers _ _ Hin).
Defined.

Lemma process_data_status_witness :
  exists r p',
    call (process_data (A:=nat) no_float true (Parsed sample_object))
      [] [] quiet = (Returned r, p') /\
    status_of r = 200%Z.
Proof.
  destruct (process_data_status (A:=nat) no_float true (Parsed sample_object)
              [] [] quiet) as (r & p' & H1 & _ & _ & H4 & _);
    [discriminate|].
  exists r, p'. split; [exact H1|]. apply H4.
  split; [reflexivity|]. exists sample_object. split; reflexivity.
Defined.

Lemma success_counts_at_least_one_item_witness :
  call (process_data (A:=nat) no_float true (Parsed sample_object))
    [] [] quiet = (Returned (Plain (process sample_object)), quiet) /\
  1 <= items_processed (process sample_object) /\
  keys_count (process sample_object) = Some 2.
Proof.
  split; [reflexivity|]. split; [|reflexivity].
  apply (success_counts_at_least_one_item (A:=nat) no_float true
           (Parsed sample_object) [] [] quiet (process sample_object) quiet
           eq_refl).
Defined.

Lemma process_data_handles_its_own_errors_witness :
  call (process_data (A:=nat) no_float true (Failed "bad")) [] [] quiet =
    (Returned (JsonStatus
       [("error", "Error en el procesamiento");
        ("message", "Verifica el formato de los datos enviados")] 500),
     log (LogError ("Error procesando datos: " +:+ "bad")) quiet) /\
  call (handle_errors (process_data (A:=nat) no_float true (Failed "bad")))
    [] [] quiet =
    (Returned (Plain (JsonStatus
       [("error", "Error en el procesamiento");
        ("message", "Verifica el formato de los datos enviados")] 500)),
     log (LogError ("Error procesando datos: " +:+ "bad")) quiet).
Proof.
  split; [reflexivity|].
  apply (proj2 (process_data_handles_its_own_errors (A:=nat) no_float true
                  (Failed "bad") [] [] quiet)).
  reflexivity.
Defined.

Lemma cache_key_injective_witness :
  cache_key key_of "home" root [] = cache_key key_of "home" root [] /\
  "home" = "home" /\ method root = method root /\ path root = path root.
Proof.
  split; [reflexivity|].
  apply (cache_key_injective key_of "home" "home" root root []);
    reflexivity.
Defined.

Lemma health_count_excludes_own_entry_witness :
  exists b c' p',
    health_route (A:=nat) key_of 5 None "3.12" health_request 5 [] quiet =
      (Returned (Plain (Health b)), (c', p')) /\
    h_cache_entries b = 0 /\ length c' = 1.
Proof.
  destruct (health_count_excludes_own_entry (A:=nat) key_of 5%Z None "3.12"
              health_request 5%Z [] quiet)
    as (b & c' & p' & H1 & H2 & _ & H4 & _);
    [left; reflexivity | simpl; unfold capacity; lia |].
  exists b, c', p'. split; [exact H1|]. split; [exact H2|].
  rewrite H4, H2; [reflexivity | apply not_elem_of_nil
                  | simpl; unfold capacity; lia].
Defined.
